(** * Subsumption-mapping generation (deeponto/data/align/subs_maps.py)

    A shallow embedding of [SubsumptionMappingGenerator]: the bounded
    breadth-first search [subs_from_an_equiv], the two bookkeeping policies
    [static_subs_construct] and [online_subs_construct], the query
    [preserved_tgt_iris] and the constructor.

    Python integers are [Z]; the two [defaultdict(lambda: False)] status maps
    are [gmap string bool] together with a lookup that inserts the default;
    [hop_record] is a [gmap] keyed by pairs of names; Python lists are lists.
    Exceptions are an explicit result type. *)

From Stdlib Require Import ZArith Lia.
From stdpp Require Import base option list gmap strings.

Local Open Scope string_scope.
Local Open Scope list_scope.
Local Open Scope Z_scope.

(** ** Results and exceptions *)

Inductive exn : Type :=
| ValueError (msg : string)
| IndexError
| AssertionError
| ReadError.

(** [OutOfFuel] is the outcome of a loop model that used up its fuel; the
    development proves that [subs_from_an_equiv] never produces it. *)
Inductive result (A : Type) : Type :=
| Ok (a : A)
| Raise (e : exn)
| OutOfFuel.

Arguments Ok {A} a.
Arguments Raise {A} e.
Arguments OutOfFuel {A}.

#[global] Instance result_bind : MBind result := λ A B k r,
  match r with
  | Ok a => k a
  | Raise e => Raise e
  | OutOfFuel => OutOfFuel
  end.

(** ** Data model *)

(** An owlready2 class object; the code reads its [iri] attribute only.
    Two class objects are the same object exactly when their IRIs agree. *)
Record ThingClass : Type := { iri : string }.

#[global] Instance ThingClass_eq_dec : EqDecision ThingClass.
Proof. solve_decision. Defined.

(** The part of [Ontology] the generator touches: the class index
    [class2idx] (a dict from abbreviated IRI to number, in insertion order)
    and [owl.search(iri=...)], which returns the list of matches. *)
Record Ontology : Type := {
  class2idx : list (string * nat);
  owl_search : string → list ThingClass
}.

Definition class2idx_keys (onto : Ontology) : list string :=
  map fst (class2idx onto).

(** The instance state of [SubsumptionMappingGenerator]. [equiv_maps] is
    read by [validate_subs] only and is left out. *)
Record SubsumptionMappingGenerator : Type := {
  src_onto : Ontology;
  tgt_onto : Ontology;
  rel : string;
  move : ThingClass → list ThingClass;
  max_hop : Z;
  equiv_pairs : list (string * string);
  sub_pairs : list (string * string);
  hop_record : gmap (string * string) Z;
  max_subs_ratio : Z;
  is_delete_equiv_tgt : bool;
  delete_status : gmap string bool;
  construct_status : gmap string bool
}.

Definition set_sub_pairs (v : list (string * string))
    (self : SubsumptionMappingGenerator) : SubsumptionMappingGenerator :=
  {| src_onto := src_onto self; tgt_onto := tgt_onto self; rel := rel self;
     move := move self; max_hop := max_hop self;
     equiv_pairs := equiv_pairs self; sub_pairs := v;
     hop_record := hop_record self; max_subs_ratio := max_subs_ratio self;
     is_delete_equiv_tgt := is_delete_equiv_tgt self;
     delete_status := delete_status self;
     construct_status := construct_status self |}.

Definition set_hop_record (v : gmap (string * string) Z)
    (self : SubsumptionMappingGenerator) : SubsumptionMappingGenerator :=
  {| src_onto := src_onto self; tgt_onto := tgt_onto self; rel := rel self;
     move := move self; max_hop := max_hop self;
     equiv_pairs := equiv_pairs self; sub_pairs := sub_pairs self;
     hop_record := v; max_subs_ratio := max_subs_ratio self;
     is_delete_equiv_tgt := is_delete_equiv_tgt self;
     delete_status := delete_status self;
     construct_status := construct_status self |}.

Definition set_delete_status (v : gmap string bool)
    (self : SubsumptionMappingGenerator) : SubsumptionMappingGenerator :=
  {| src_onto := src_onto self; tgt_onto := tgt_onto self; rel := rel self;
     move := move self; max_hop := max_hop self;
     equiv_pairs := equiv_pairs self; sub_pairs := sub_pairs self;
     hop_record := hop_record self; max_subs_ratio := max_subs_ratio self;
     is_delete_equiv_tgt := is_delete_equiv_tgt self;
     delete_status := v;
     construct_status := construct_status self |}.

Definition set_construct_status (v : gmap string bool)
    (self : SubsumptionMappingGenerator) : SubsumptionMappingGenerator :=
  {| src_onto := src_onto self; tgt_onto := tgt_onto self; rel := rel self;
     move := move self; max_hop := max_hop self;
     equiv_pairs := equiv_pairs self; sub_pairs := sub_pairs self;
     hop_record := hop_record self; max_subs_ratio := max_subs_ratio self;
     is_delete_equiv_tgt := is_delete_equiv_tgt self;
     delete_status := delete_status self;
     construct_status := v |}.

(** [d[k]] on a [defaultdict(lambda: False)]: a missing key is inserted with
    the default before the value is returned. *)
Definition defaultdict_getitem (d : gmap string bool) (k : string)
    : bool * gmap string bool :=
  match d !! k with
  | Some b => (b, d)
  | None => (false, <[k := false]> d)
  end.

(** [self.delete_status[k]] and [self.construct_status[k]] as reads that
    may grow the map. *)
Definition delete_status_getitem (self : SubsumptionMappingGenerator)
    (k : string) : bool * SubsumptionMappingGenerator :=
  let '(b, d) := defaultdict_getitem (delete_status self) k in
  (b, set_delete_status d self).

Definition construct_status_getitem (self : SubsumptionMappingGenerator)
    (k : string) : bool * SubsumptionMappingGenerator :=
  let '(b, d) := defaultdict_getitem (construct_status self) k in
  (b, set_construct_status d self).

(** A class is marked deleted (constructed) when its flag is [True]. *)
Definition marked_deleted (self : SubsumptionMappingGenerator) (k : string) : Prop :=
  delete_status self !! k = Some true.

Definition marked_constructed (self : SubsumptionMappingGenerator) (k : string) : Prop :=
  construct_status self !! k = Some true.

(** Modelled from the spec: [uniqify] of deeponto.utils is not part of the
    sources at hand; the spec says it deduplicates the pairs.  The model
    keeps the first occurrence of every element, in order. *)
Fixpoint uniqify_from {A : Type} `{EqDecision A} (seen ls : list A) : list A :=
  match ls with
  | [] => []
  | x :: ls =>
      if decide (x ∈ seen) then uniqify_from seen ls
      else x :: uniqify_from (x :: seen) ls
  end.

Definition uniqify {A : Type} `{EqDecision A} (ls : list A) : list A :=
  uniqify_from [] ls.

(** ** The generator's methods *)

Section Generator.

(** Helpers of deeponto.onto.text.text_utils, not part of the sources at
    hand: they convert between abbreviated and full IRIs. *)
Variable unfold_iri : string → string.
Variable abbr_iri : string → string.

(** [list(set(xs) - set(ys))]: the elements of [xs] that are not in [ys],
    once each, in the iteration order of the Python set, about which
    nothing is assumed here. *)
Variable set_difference : list ThingClass → list ThingClass → list ThingClass.

(** [onto.owl.search(iri=unfold_iri(name))[0]] *)
Definition search_first (onto : Ontology) (name : string) : result ThingClass :=
  match owl_search onto (unfold_iri name) with
  | ent :: _ => Ok ent
  | [] => Raise IndexError
  end.

Definition renew_subs (self : SubsumptionMappingGenerator)
    : SubsumptionMappingGenerator :=
  set_construct_status ∅
    (set_delete_status ∅
       (set_hop_record ∅
          (set_sub_pairs [] self))).

(** The inner [for neighbour in neighbours_of_ent] loop, with its
    [continue] and its [break]. *)
Fixpoint scan_neighbours (src_ent_name : string) (hop : Z)
    (neighbours_of_ent : list ThingClass)
    (valid_neighbours : list string) (num_added : Z)
    (self : SubsumptionMappingGenerator)
    : list string * Z * SubsumptionMappingGenerator :=
  match neighbours_of_ent with
  | [] => (valid_neighbours, num_added, self)
  | neighbour :: rest =>
      let neighbour_name := abbr_iri (iri neighbour) in
      let '(skip, self) :=
        if is_delete_equiv_tgt self
        then delete_status_getitem self neighbour_name
        else (false, self) in
      if skip then
        scan_neighbours src_ent_name hop rest valid_neighbours num_added self
      else
        let self :=
          set_hop_record
            (<[(src_ent_name, neighbour_name) := hop]> (hop_record self)) self in
        let valid_neighbours := valid_neighbours ++ [neighbour_name] in
        let self :=
          set_construct_status
            (<[neighbour_name := true]> (construct_status self)) self in
        let num_added := num_added + 1 in
        if num_added =? max_subs_ratio self then
          (valid_neighbours, num_added, self)
        else
          scan_neighbours src_ent_name hop rest valid_neighbours num_added self
  end.

(** The [for ent in frontier] loop. *)
Fixpoint scan_frontier (src_ent_name : string) (hop : Z)
    (frontier cur_hop_neighbours explored : list ThingClass)
    (valid_neighbours : list string) (num_added : Z)
    (self : SubsumptionMappingGenerator)
    : list ThingClass * list ThingClass * list string * Z
      * SubsumptionMappingGenerator :=
  match frontier with
  | [] => (cur_hop_neighbours, explored, valid_neighbours, num_added, self)
  | ent :: rest =>
      let neighbours_of_ent := move self ent in
      let '(valid_neighbours, num_added, self) :=
        scan_neighbours src_ent_name hop neighbours_of_ent
          valid_neighbours num_added self in
      scan_frontier src_ent_name hop rest
        (cur_hop_neighbours ++ neighbours_of_ent) (explored ++ [ent])
        valid_neighbours num_added self
  end.

(** The [while] loop; [None] when the fuel is used up with the loop
    condition still true. *)
Fixpoint bfs_while (fuel : nat) (src_ent_name : string)
    (frontier explored : list ThingClass) (hop : Z)
    (valid_neighbours : list string) (num_added : Z)
    (self : SubsumptionMappingGenerator)
    : option (list string * SubsumptionMappingGenerator) :=
  if (Z.of_nat (length valid_neighbours) <? max_subs_ratio self)
     && (hop <=? max_hop self)
  then
    match fuel with
    | O => None
    | S fuel =>
        let '(cur_hop_neighbours, explored, valid_neighbours, num_added, self) :=
          scan_frontier src_ent_name hop frontier [] explored
            valid_neighbours num_added self in
        bfs_while fuel src_ent_name
          (set_difference cur_hop_neighbours explored) explored (hop + 1)
          valid_neighbours num_added self
    end
  else Some (valid_neighbours, self).

Definition subs_from_an_equiv (self : SubsumptionMappingGenerator)
    (src_ent_name tgt_ent_name : string)
    : result (list (string * string) * SubsumptionMappingGenerator) :=
  tgt_ent ← search_first (tgt_onto self) tgt_ent_name;
  match bfs_while (Z.to_nat (max_hop self)) src_ent_name
          [tgt_ent] [] 1 [] 0 self with
  | Some (valid_neighbours, self) =>
      let subs_pairs :=
        map (λ neighbour_name, (src_ent_name, neighbour_name)) valid_neighbours in
      Ok (uniqify subs_pairs, self)
  | None => OutOfFuel
  end.

(** Step (1) of the static algorithm: the loop that marks the
    equivalence targets. *)
Fixpoint static_mark_targets (pairs : list (string * string))
    (self : SubsumptionMappingGenerator) : result SubsumptionMappingGenerator :=
  match pairs with
  | [] => Ok self
  | (_, tgt_equiv) :: rest =>
      tgt_equiv_ent ← search_first (tgt_onto self) tgt_equiv;
      let self :=
        match move self tgt_equiv_ent with
        | [] => self
        | _ :: _ =>
            set_delete_status (<[tgt_equiv := true]> (delete_status self)) self
        end in
      static_mark_targets rest self
  end.

(** The second loop of the static algorithm. *)
Fixpoint static_collect (pairs : list (string * string))
    (self : SubsumptionMappingGenerator) : result SubsumptionMappingGenerator :=
  match pairs with
  | [] => Ok self
  | (src_equiv, tgt_equiv) :: rest =>
      '(subs, self) ← subs_from_an_equiv self src_equiv tgt_equiv;
      static_collect rest (set_sub_pairs (sub_pairs self ++ subs) self)
  end.

(** [renew_subs] and step (1) of the static algorithm, which runs only
    when deletion is on. *)
Definition static_prepass (self : SubsumptionMappingGenerator)
    : result SubsumptionMappingGenerator :=
  let self := renew_subs self in
  if is_delete_equiv_tgt self
  then static_mark_targets (equiv_pairs self) self
  else Ok self.

Definition static_subs_construct (self : SubsumptionMappingGenerator)
    : result SubsumptionMappingGenerator :=
  self ← static_prepass self;
  self ← static_collect (equiv_pairs self) self;
  Ok (set_sub_pairs (uniqify (sub_pairs self)) self).

(** One iteration of the loop of the online algorithm. *)
Definition online_step (self : SubsumptionMappingGenerator)
    (src_equiv tgt_equiv : string) : result SubsumptionMappingGenerator :=
  let '(skip, self) :=
    if is_delete_equiv_tgt self
    then construct_status_getitem self tgt_equiv
    else (false, self) in
  if skip then Ok self
  else
    '(cur_subs, self) ← subs_from_an_equiv self src_equiv tgt_equiv;
    let self :=
      if is_delete_equiv_tgt self
      then match cur_subs with
           | [] => self
           | _ :: _ =>
               set_delete_status
                 (<[tgt_equiv := true]> (delete_status self)) self
           end
      else self in
    Ok (set_sub_pairs (sub_pairs self ++ cur_subs) self).

Fixpoint online_loop (pairs : list (string * string))
    (self : SubsumptionMappingGenerator) : result SubsumptionMappingGenerator :=
  match pairs with
  | [] => Ok self
  | (src_equiv, tgt_equiv) :: rest =>
      self ← online_step self src_equiv tgt_equiv;
      online_loop rest self
  end.

Definition online_subs_construct (self : SubsumptionMappingGenerator)
    : result SubsumptionMappingGenerator :=
  let self := renew_subs self in
  self ← online_loop (equiv_pairs self) self;
  Ok (set_sub_pairs (uniqify (sub_pairs self)) self).

(** The loop of [preserved_tgt_iris] over the keys of the class index. *)
Fixpoint preserved_loop (keys : list string) (preserved : list string)
    (self : SubsumptionMappingGenerator)
    : list string * SubsumptionMappingGenerator :=
  match keys with
  | [] => (preserved, self)
  | tgt_ent_name :: rest =>
      let '(deleted, self) := delete_status_getitem self tgt_ent_name in
      if negb deleted
      then preserved_loop rest (preserved ++ [unfold_iri tgt_ent_name]) self
      else preserved_loop rest preserved self
  end.

Definition preserved_tgt_iris (self : SubsumptionMappingGenerator)
    : list string * SubsumptionMappingGenerator :=
  preserved_loop (class2idx_keys (tgt_onto self)) [] self.

End Generator.

(** ** Construction *)

(** What the constructor does to the outside world, in order. *)
Inductive event : Type :=
| EvReadTsv (path : string)
| EvRandomChoice.

Section Construction.

(** Helpers of deeponto.onto.graph.graph_utils, not part of the sources
    at hand: the immediate named super- and sub-classes of a class. *)
Variable super_thing_classes_of : ThingClass → list ThingClass.
Variable sub_thing_classes_of : ThingClass → list ThingClass.

(** [OntoMappings.read_tsv_mappings(path).to_tuples()], which reads the
    file at [path]; it can fail with an exception of its own. *)
Variable read_tsv_mappings : string → exn + list (string * string).

(** The number drawn by [random.choice]. *)
Variable random_draw : nat.

(** [random.choice(seq)] raises [IndexError] on an empty sequence. *)
Definition random_choice {A : Type} (seq : list A) : result A :=
  match seq !! (random_draw `mod` length seq)%nat with
  | Some x => Ok x
  | None => Raise IndexError
  end.

(** The branch on [self.rel] that selects [self.move]. *)
Definition select_move (rel : string)
    : result (ThingClass → list ThingClass) :=
  if String.eqb rel "<" then Ok (λ x, super_thing_classes_of x)
  else if String.eqb rel ">" then Ok (λ x, sub_thing_classes_of x)
  else Raise (ValueError ("Unknown subsumption relation: " +:+ rel)).

(** [__init__], returning the events performed and the outcome. *)
Definition init (src_onto tgt_onto : Ontology) (rel : string)
    (equiv_mappings_path : string) (max_subs_ratio : Z)
    (is_delete_equiv_tgt : bool) (max_hop : Z)
    : list event * result SubsumptionMappingGenerator :=
  match select_move rel with
  | Raise e => ([], Raise e)
  | OutOfFuel => ([], OutOfFuel)
  | Ok move =>
      match read_tsv_mappings equiv_mappings_path with
      | inl e => ([EvReadTsv equiv_mappings_path], Raise e)
      | inr equiv_pairs =>
          ([EvReadTsv equiv_mappings_path; EvRandomChoice],
           check_pair ← random_choice equiv_pairs;
           if decide (check_pair.1 ∈ class2idx_keys src_onto) then
             if decide (check_pair.2 ∈ class2idx_keys tgt_onto) then
               Ok {| src_onto := src_onto; tgt_onto := tgt_onto; rel := rel;
                     move := move; max_hop := max_hop;
                     equiv_pairs := equiv_pairs; sub_pairs := [];
                     hop_record := ∅; max_subs_ratio := max_subs_ratio;
                     is_delete_equiv_tgt := is_delete_equiv_tgt;
                     delete_status := ∅; construct_status := ∅ |}
             else Raise AssertionError
           else Raise AssertionError)
      end
  end.

End Construction.

(** ** Validation *)

(** How [validate_subs] ends: with a boolean, with an exception of the
    lookups, or with Python's [UnboundLocalError] when [subs_related] is read
    without having been assigned. *)
Inductive validation : Type :=
| Valid (b : bool)
| ValidationError (e : exn)
| UnboundLocalError.

Section Validation.

Variable unfold_iri : string → string.

(** Helpers of deeponto.onto.graph.graph_utils, not part of the sources at
    hand: all named ancestors and all named descendants of a class. *)
Variable thing_class_ancestors_of : ThingClass → list ThingClass.
Variable thing_class_descendants_of : ThingClass → list ThingClass.

(** [self.equiv_maps.ranked[src_ent_name].keys()]: the targets mapped to a
    source, in rank order; the lookup belongs to [OntoMappings], which is
    not part of the sources at hand, and can fail with an exception of its
    own. *)
Variable ranked_keys : string → exn + list string.

(** The branch on [self.rel] of [validate_subs]; there is no [else], so
    [subs_related] stays unassigned for any other relation. *)
Definition select_related (rel : string)
    : option (ThingClass → list ThingClass) :=
  if String.eqb rel "<" then Some (λ e, thing_class_ancestors_of e)
  else if String.eqb rel ">" then Some (λ e, thing_class_descendants_of e)
  else None.

(** The [for equiv_tgt_name in ...] loop of [validate_subs]. *)
Fixpoint validate_loop (onto : Ontology)
    (subs_related : option (ThingClass → list ThingClass))
    (tgt_ent : ThingClass) (keys : list string) : validation :=
  match keys with
  | [] => Valid false
  | equiv_tgt_name :: rest =>
      match owl_search onto (unfold_iri equiv_tgt_name) with
      | [] => ValidationError IndexError
      | equiv_tgt :: _ =>
          match subs_related with
          | None => UnboundLocalError
          | Some related =>
              if decide (tgt_ent ∈ related equiv_tgt) then Valid true
              else validate_loop onto subs_related tgt_ent rest
          end
      end
  end.

Definition validate_subs (self : SubsumptionMappingGenerator)
    (subs_pair : string * string) : validation :=
  let '(src_ent_name, tgt_ent_name) := subs_pair in
  match owl_search (tgt_onto self) (unfold_iri tgt_ent_name) with
  | [] => ValidationError IndexError
  | tgt_ent :: _ =>
      let subs_related := select_related (rel self) in
      match ranked_keys src_ent_name with
      | inl e => ValidationError e
      | inr keys => validate_loop (tgt_onto self) subs_related tgt_ent keys
      end
  end.

End Validation.

(** ** Token sizes (deeponto/subs/bertsubs/bert_classifier.py) *)

(** The five counters of [load_dataset] when [count_token_size] is on. *)
Record token_sizes : Type := {
  l_sum : Z;
  num_128 : Z;
  num_256 : Z;
  num_512 : Z;
  l_max : Z
}.

(** The body of the loop [for item in tokens["input_ids"]]. *)
Definition count_item (c : token_sizes) (item : list Z) : token_sizes :=
  let l := Z.of_nat (length item) in
  let l_sum := l_sum c + l in
  let num_128 := if l <=? 128 then num_128 c + 1 else num_128 c in
  let num_256 := if l <=? 256 then num_256 c + 1 else num_256 c in
  let num_512 := if l <=? 512 then num_512 c + 1 else num_512 c in
  let l_max := if l >? l_max c then l else l_max c in
  {| l_sum := l_sum; num_128 := num_128; num_256 := num_256;
     num_512 := num_512; l_max := l_max |}.

(** The loop, started from the given counters. *)
Fixpoint count_from (c : token_sizes) (input_ids : list (list Z)) : token_sizes :=
  match input_ids with
  | [] => c
  | item :: rest => count_from (count_item c item) rest
  end.

Definition count_token_sizes (input_ids : list (list Z)) : token_sizes :=
  count_from {| l_sum := 0; num_128 := 0; num_256 := 0; num_512 := 0;
                l_max := 0 |} input_ids.

(** ** A small hierarchy to run the model on *)

Module Fixture.

Definition cls (name : string) : ThingClass := {| iri := name |}.

(** Abbreviated and full IRIs coincide in the fixtures. *)
Definition unfold_iri (s : string) : string := s.
Definition abbr_iri (s : string) : string := s.

(** One possible iteration order of [list(set(xs) - set(ys))]: first
    occurrences, in the order of [xs]. *)
Definition set_difference (xs ys : list ThingClass) : list ThingClass :=
  uniqify (filter (λ x, x ∉ ys) xs).

Definition onto (names : list string) : Ontology :=
  {| class2idx := imap (λ i n, (n, i)) names;
     owl_search := λ i, if decide (i ∈ names) then [cls i] else [] |}.

Definition generator (names : list string)
    (move : ThingClass → list ThingClass) (rel : string)
    (equiv_pairs : list (string * string))
    (max_subs_ratio : Z) (is_delete_equiv_tgt : bool) (max_hop : Z)
    : SubsumptionMappingGenerator :=
  {| src_onto := onto (map fst equiv_pairs); tgt_onto := onto names;
     rel := rel; move := move; max_hop := max_hop;
     equiv_pairs := equiv_pairs; sub_pairs := [];
     hop_record := ∅; max_subs_ratio := max_subs_ratio;
     is_delete_equiv_tgt := is_delete_equiv_tgt;
     delete_status := ∅; construct_status := ∅ |}.

(** B has super-classes C and D, C has E and F, D has G and H. *)
Definition tree_supers (x : ThingClass) : list ThingClass :=
  if String.eqb (iri x) "B" then [cls "C"; cls "D"]
  else if String.eqb (iri x) "C" then [cls "E"; cls "F"]
  else if String.eqb (iri x) "D" then [cls "G"; cls "H"]
  else [].

Definition tree_names : list string := ["B"; "C"; "D"; "E"; "F"; "G"; "H"].

(** B has super-classes C and D, and D has super-class C. *)
Definition diamond_supers (x : ThingClass) : list ThingClass :=
  if String.eqb (iri x) "B" then [cls "C"; cls "D"]
  else if String.eqb (iri x) "D" then [cls "C"]
  else [].

Definition diamond_names : list string := ["B"; "C"; "D"].

(** The tree with cap 3 and depth 2, and the diamond with cap 5 and
    depth 2, each with the one equivalence pair (A, B). *)
Definition tree_generator : SubsumptionMappingGenerator :=
  generator tree_names tree_supers "<" [("A", "B")] 3 true 2.

Definition diamond_generator : SubsumptionMappingGenerator :=
  generator diamond_names diamond_supers "<" [("A", "B")] 5 true 2.

(** The generator a run ended with, for runs that end well. *)
Definition outcome (r : result SubsumptionMappingGenerator)
    : SubsumptionMappingGenerator :=
  match r with
  | Ok final => final
  | _ => diamond_generator
  end.

Definition static_run (self : SubsumptionMappingGenerator)
    : result SubsumptionMappingGenerator :=
  static_subs_construct unfold_iri abbr_iri set_difference self.

Definition online_run (self : SubsumptionMappingGenerator)
    : result SubsumptionMappingGenerator :=
  online_subs_construct unfold_iri abbr_iri set_difference self.

Definition search (self : SubsumptionMappingGenerator) (src tgt : string)
    : result (list (string * string) * SubsumptionMappingGenerator) :=
  subs_from_an_equiv unfold_iri abbr_iri set_difference self src tgt.

(** The pairs and the generator a search ended with, when it ends well. *)
Definition search_outcome
    (r : result (list (string * string) * SubsumptionMappingGenerator))
    : list (string * string) * SubsumptionMappingGenerator :=
  match r with
  | Ok p => p
  | _ => ([], diamond_generator)
  end.

(** B has super-class C, which has super-class D; cap 1 and depth 2. *)
Definition chain_supers (x : ThingClass) : list ThingClass :=
  if String.eqb (iri x) "B" then [cls "C"]
  else if String.eqb (iri x) "C" then [cls "D"]
  else [].

Definition chain_generator : SubsumptionMappingGenerator :=
  generator ["B"; "C"; "D"] chain_supers "<" [("A", "B")] 1 true 2.

(** The same classes without any super-class. *)
Definition flat_generator : SubsumptionMappingGenerator :=
  generator ["B"; "C"; "D"] (λ _, []) "<" [("A", "B")] 1 true 2.

(** The chain with the pairs (A, B) and (X, B), for the online pass. *)
Definition twice_generator : SubsumptionMappingGenerator :=
  generator ["B"; "C"; "D"] chain_supers "<" [("A", "B"); ("X", "B")] 1 true 2.

(** The diamond with depth 0: no hop is allowed. *)
Definition shallow_generator : SubsumptionMappingGenerator :=
  generator diamond_names diamond_supers "<" [("A", "B")] 1 true 0.

(** A mappings file with the single pair (A, B). *)
Definition read_tsv_mappings (path : string) : exn + list (string * string) :=
  inr [("A", "B")].

(** An empty mappings file. *)
Definition read_empty_mappings (path : string) : exn + list (string * string) :=
  inr [].

(** All ancestors in the chain. *)
Definition chain_ancestors (x : ThingClass) : list ThingClass :=
  if String.eqb (iri x) "B" then [cls "C"; cls "D"]
  else if String.eqb (iri x) "C" then [cls "D"]
  else [].

(** The ranked targets of the chain's mappings: A is mapped to B. *)
Definition chain_ranked_keys (src : string) : exn + list string :=
  if String.eqb src "A" then inr ["B"] else inr [].

(** The chain with deletion off. *)
Definition plain_generator : SubsumptionMappingGenerator :=
  generator ["B"; "C"; "D"] chain_supers "<" [("A", "B")] 1 false 2.

(** Two mappings with an unresolvable target in second place. *)
Definition broken_generator : SubsumptionMappingGenerator :=
  generator ["B"; "C"; "D"] chain_supers "<" [("A", "B"); ("X", "Z")] 1 true 2.

(** A target ontology that resolves the names [names] and has only the
    names [indexed] in its class index. *)
Definition partial_onto (indexed names : list string) : Ontology :=
  {| class2idx := imap (λ i n, (n, i)) indexed;
     owl_search := λ i, if decide (i ∈ names) then [cls i] else [] |}.

(** A mappings file whose second pair has a target outside the index. *)
Definition read_outside_mappings (path : string)
    : exn + list (string * string) :=
  inr [("A", "C"); ("X", "B")].

(** The chain, with B resolvable but not in the class index, and the two
    pairs (A, C) and (X, B): the generator that the constructor returns when
    the sample drawn for its check is the first pair. *)
Definition outside_generator : SubsumptionMappingGenerator :=
  {| src_onto := onto ["A"; "X"];
     tgt_onto := partial_onto ["C"; "D"] ["B"; "C"; "D"];
     rel := "<"; move := λ x, chain_supers x; max_hop := 2;
     equiv_pairs := [("A", "C"); ("X", "B")]; sub_pairs := [];
     hop_record := ∅; max_subs_ratio := 1;
     is_delete_equiv_tgt := true;
     delete_status := ∅; construct_status := ∅ |}.

End Fixture.

(** ** Reachability in the hierarchy *)

(** The classes met after exactly [k] moves from the classes of [level],
    and from [anchor]. *)
Fixpoint reach_from (move : ThingClass → list ThingClass)
    (level : list ThingClass) (k : nat) : list ThingClass :=
  match k with
  | O => level
  | S k => reach_from move (flat_map move level) k
  end.

Definition reach (move : ThingClass → list ThingClass) (anchor : ThingClass)
    (k : nat) : list ThingClass :=
  reach_from move [anchor] k.

(** The least depth in [1..bound] at which a class named [name] is met. *)
Fixpoint first_depth_from (abbr_iri : string → string)
    (move : ThingClass → list ThingClass) (level : list ThingClass)
    (depth : Z) (bound : nat) (name : string) : option Z :=
  match bound with
  | O => None
  | S bound =>
      let level := flat_map move level in
      if decide (name ∈ map (λ e, abbr_iri (iri e)) level) then Some depth
      else first_depth_from abbr_iri move level (depth + 1) bound name
  end.

Definition first_depth (abbr_iri : string → string)
    (move : ThingClass → list ThingClass) (anchor : ThingClass)
    (bound : nat) (name : string) : option Z :=
  first_depth_from abbr_iri move [anchor] 1 bound name.

(** ** How a search may change the generator *)

(** The fields that are set by the constructor and never written again. *)
Record same_config (self self' : SubsumptionMappingGenerator) : Prop := {
  sc_src_onto : src_onto self' = src_onto self;
  sc_tgt_onto : tgt_onto self' = tgt_onto self;
  sc_rel : rel self' = rel self;
  sc_move : move self' = move self;
  sc_max_hop : max_hop self' = max_hop self;
  sc_equiv_pairs : equiv_pairs self' = equiv_pairs self;
  sc_max_subs_ratio : max_subs_ratio self' = max_subs_ratio self;
  sc_is_delete_equiv_tgt : is_delete_equiv_tgt self' = is_delete_equiv_tgt self
}.

(** A status map that only gained keys holding the default. *)
Definition defaults_added (d d' : gmap string bool) : Prop :=
  ∀ k, d' !! k = d !! k ∨ (d !! k = None ∧ d' !! k = Some false).

(** A status map in which some flags were raised. *)
Definition flags_raised (d d' : gmap string bool) : Prop :=
  ∀ k, d' !! k = d !! k ∨ d' !! k = Some true.

(** Every entry of the new hop record is an entry of the old one or
    satisfies [W]. *)
Definition hop_written (W : string * string → Z → Prop)
    (r r' : gmap (string * string) Z) : Prop :=
  ∀ key h, r' !! key = Some h → r !! key = Some h ∨ W key h.

(** The effect of a stretch of the search that accepts neighbours
    satisfying [C] and writes hop entries satisfying [W]. *)
Record search_effect (W : string * string → Z → Prop) (C : string → Prop)
    (self : SubsumptionMappingGenerator) (valid : list string)
    (self' : SubsumptionMappingGenerator) (valid' : list string) : Prop := {
  se_config : same_config self self';
  se_delete : defaults_added (delete_status self) (delete_status self');
  se_construct : flags_raised (construct_status self) (construct_status self');
  se_hop : hop_written W (hop_record self) (hop_record self');
  se_valid : ∃ added, valid' = valid ++ added ∧ Forall C added
}.

(** What makes a name an acceptable neighbour in state [self]: it names
    one of the candidate classes and, when deletion is on, is not marked
    deleted. *)
Definition acceptable (abbr_iri : string → string)
    (self : SubsumptionMappingGenerator)
    (cands : ThingClass → Prop) (x : string) : Prop :=
  (∃ n, cands n ∧ x = abbr_iri (iri n)) ∧
  (is_delete_equiv_tgt self = true → ¬ marked_deleted self x).

(** A hop entry written for source [src] at depth [hop] for a candidate. *)
Definition written_at (abbr_iri : string → string)
    (src : string) (hop : Z) (cands : ThingClass → Prop)
    (key : string * string) (h : Z) : Prop :=
  h = hop ∧ ∃ n, cands n ∧ key = (src, abbr_iri (iri n)).

(** The same over a range of depths, where [F k] holds of the classes that
    can be met after [k] hops. *)
Definition written_from (abbr_iri : string → string)
    (F : nat → ThingClass → Prop) (src : string) (lo hi : Z)
    (key : string * string) (h : Z) : Prop :=
  lo ≤ h ≤ hi ∧ ∃ n, F (Z.to_nat h) n ∧ key = (src, abbr_iri (iri n)).

Definition met_from (F : nat → ThingClass → Prop) (lo hi : Z)
    (n : ThingClass) : Prop :=
  ∃ h, lo ≤ h ≤ hi ∧ F (Z.to_nat h) n.

(** A hop entry written by the search of one of the equivalence pairs
    [pairs], where [G ent k] holds of the classes that can be met [k] hops
    away from the anchor [ent]. *)
Definition pass_written (unfold_iri abbr_iri : string → string)
    (G : ThingClass → nat → ThingClass → Prop) (onto : Ontology) (hi : Z)
    (pairs : list (string * string)) (key : string * string) (h : Z) : Prop :=
  ∃ s t ent, (s, t) ∈ pairs ∧ search_first unfold_iri onto t = Ok ent ∧
    written_from abbr_iri (G ent) s 1 hi key h.

(** Every target of [pairs] resolves in the ontology. *)
Definition targets_resolve (unfold_iri : string → string) (onto : Ontology)
    (pairs : list (string * string)) : Prop :=
  ∀ s t, (s, t) ∈ pairs → owl_search onto (unfold_iri t) ≠ [].

(** In state [mid] the pair [(s, t)] is not skipped by the online
    algorithm with deletion on, and its search returns [cur_subs] and
    leaves the generator in state [mid']. *)
Definition searched_at (unfold_iri abbr_iri : string → string)
    (set_difference : list ThingClass → list ThingClass → list ThingClass)
    (mid : SubsumptionMappingGenerator) (s t : string)
    (cur_subs : list (string * string))
    (mid' : SubsumptionMappingGenerator) : Prop :=
  ¬ marked_constructed mid t ∧
  subs_from_an_equiv unfold_iri abbr_iri set_difference
    (construct_status_getitem mid t).2 s t = Ok (cur_subs, mid').

(** The claim that the hop record holds first-reach depths, for the
    passes of one generator: the distance recorded for [(s, n)] is the least
    depth at which the anchor of a pair of source [s] reaches [n]. *)
Definition records_first_depth (unfold_iri abbr_iri : string → string)
    (set_difference : list ThingClass → list ThingClass → list ThingClass)
    (self : SubsumptionMappingGenerator) : Prop :=
  ∀ final,
    static_subs_construct unfold_iri abbr_iri set_difference self = Ok final ∨
    online_subs_construct unfold_iri abbr_iri set_difference self = Ok final →
    ∀ s t ent n h,
      (s, t) ∈ equiv_pairs self →
      search_first unfold_iri (tgt_onto self) t = Ok ent →
      hop_record final !! (s, n) = Some h →
      first_depth abbr_iri (move self) ent (Z.to_nat (max_hop self)) n = Some h.

(** The claim that, after the passes of one generator, the names kept by
    [preserved_tgt_iris] and the classes marked deleted partition the class
    index of the target ontology. *)
Definition partitions_class_index (unfold_iri abbr_iri : string → string)
    (set_difference : list ThingClass → list ThingClass → list ThingClass)
    (self : SubsumptionMappingGenerator) : Prop :=
  ∀ final,
    static_subs_construct unfold_iri abbr_iri set_difference self = Ok final ∨
    online_subs_construct unfold_iri abbr_iri set_difference self = Ok final →
    ∃ kept,
      (preserved_tgt_iris unfold_iri final).1 = map unfold_iri kept ∧
      (∀ n, n ∈ class2idx_keys (tgt_onto final) ↔
            n ∈ kept ∨ marked_deleted final n) ∧
      (∀ n, ¬ (n ∈ kept ∧ marked_deleted final n)).

(** ** Bookkeeping of the passes *)

(** The bookkeeping of a stretch of the search that accepted the names
    [added] for source [src]: the hop record gained exactly the keys
    [(src, x)] for [x] in [added], each with a depth in [1..hi], and the
    construct marks gained exactly the names in [added]. *)
Record accounted (src : string) (hi : Z)
    (self : SubsumptionMappingGenerator) (valid : list string)
    (self' : SubsumptionMappingGenerator) (valid' : list string)
    (added : list string) : Prop := {
  ac_valid : valid' = valid ++ added;
  ac_written : ∀ key h, hop_record self' !! key = Some h →
    hop_record self !! key = Some h ∨
    (1 ≤ h ≤ hi ∧ ∃ x, x ∈ added ∧ key = (src, x));
  ac_kept : ∀ key, is_Some (hop_record self !! key) →
    is_Some (hop_record self' !! key);
  ac_recorded : ∀ x, x ∈ added →
    ∃ h, hop_record self' !! (src, x) = Some h ∧ 1 ≤ h ≤ hi;
  ac_constructed : ∀ k, marked_constructed self' k ↔
    marked_constructed self k ∨ k ∈ added;
  ac_sub_pairs : sub_pairs self' = sub_pairs self
}.

(** The books of a generator balance: the hop record has exactly the
    accumulated pairs as keys, with depths in [1..max_hop], and the classes
    marked constructed are exactly the targets of the accumulated pairs. *)
Definition books_balanced (st : SubsumptionMappingGenerator) : Prop :=
  (∀ key, is_Some (hop_record st !! key) ↔ key ∈ sub_pairs st) ∧
  (∀ key h, hop_record st !! key = Some h → 1 ≤ h ≤ max_hop st) ∧
  (∀ k, marked_constructed st k ↔ ∃ s, (s, k) ∈ sub_pairs st).

(** No accumulated pair has a target that is marked deleted. *)
Definition targets_kept (st : SubsumptionMappingGenerator) : Prop :=
  ∀ s n, (s, n) ∈ sub_pairs st → ¬ marked_deleted st n.

(** No equivalence target of [pairs] is met again within [hi] moves from
    its own anchor. *)
Definition no_return (unfold_iri abbr_iri : string → string)
    (onto : Ontology) (mv : ThingClass → list ThingClass) (hi : Z)
    (pairs : list (string * string)) : Prop :=
  ∀ s t ent h e,
    (s, t) ∈ pairs → search_first unfold_iri onto t = Ok ent →
    1 ≤ h ≤ hi → e ∈ reach mv ent (Z.to_nat h) →
    abbr_iri (iri e) ≠ t.

(** ** Basic facts *)

Lemma same_config_refl self : same_config self self.
Proof. by split. Qed.

Lemma same_config_trans s1 s2 s3 :
  same_config s1 s2 → same_config s2 s3 → same_config s1 s3.
Proof. intros [] []; split; congruence. Qed.

Lemma defaults_added_refl d : defaults_added d d.
Proof. intros k; by left. Qed.

Lemma defaults_added_trans d1 d2 d3 :
  defaults_added d1 d2 → defaults_added d2 d3 → defaults_added d1 d3.
Proof.
  intros H12 H23 k. destruct (H12 k) as [E1|[E1 E1']], (H23 k) as [E2|[E2 E2']].
  - left; congruence.
  - right; split; congruence.
  - right; split; congruence.
  - congruence.
Qed.

Lemma defaults_added_true d d' k :
  defaults_added d d' → (d' !! k = Some true ↔ d !! k = Some true).
Proof. intros H. destruct (H k) as [E|[E E']]; rewrite ?E, ?E'; naive_solver. Qed.

Lemma defaults_added_getitem d k : defaults_added d (defaultdict_getitem d k).2.
Proof.
  unfold defaultdict_getitem. destruct (d !! k) eqn:E; simpl.
  - apply defaults_added_refl.
  - intros j. destruct (decide (k = j)) as [->|Hne].
    + right. by rewrite lookup_insert_eq.
    + left. by rewrite lookup_insert_ne.
Qed.

Lemma defaultdict_getitem_value d k :
  (defaultdict_getitem d k).1 = true ↔ d !! k = Some true.
Proof.
  unfold defaultdict_getitem. destruct (d !! k) as [[]|]; simpl; naive_solver.
Qed.

Lemma flags_raised_refl d : flags_raised d d.
Proof. intros k; by left. Qed.

Lemma flags_raised_trans d1 d2 d3 :
  flags_raised d1 d2 → flags_raised d2 d3 → flags_raised d1 d3.
Proof.
  intros H12 H23 k. destruct (H23 k) as [E2|E2]; [|by right].
  destruct (H12 k) as [E1|E1]; [left|right]; congruence.
Qed.

Lemma flags_raised_insert d k : flags_raised d (<[k := true]> d).
Proof.
  intros j. destruct (decide (k = j)) as [->|Hne].
  - right. by rewrite lookup_insert_eq.
  - left. by rewrite lookup_insert_ne.
Qed.

Lemma hop_written_refl W r : hop_written W r r.
Proof. intros key h ?; by left. Qed.

Lemma hop_written_trans W r1 r2 r3 :
  hop_written W r1 r2 → hop_written W r2 r3 → hop_written W r1 r3.
Proof.
  intros H12 H23 key h H3. destruct (H23 key h H3) as [H2|?]; [|by right].
  by apply H12.
Qed.

Lemma hop_written_weaken (W W' : string * string → Z → Prop) r r' :
  (∀ key h, W key h → W' key h) → hop_written W r r' → hop_written W' r r'.
Proof. intros HW H key h H'. destruct (H key h H'); [by left|right; auto]. Qed.

Lemma hop_written_insert (W : string * string → Z → Prop) r key h :
  W key h → hop_written W r (<[key := h]> r).
Proof.
  intros HW key' h' H. destruct (decide (key = key')) as [->|Hne].
  - rewrite lookup_insert_eq in H. injection H as <-. by right.
  - rewrite lookup_insert_ne in H by done. by left.
Qed.

Lemma search_effect_refl W C self valid : search_effect W C self valid self valid.
Proof.
  split.
  - apply same_config_refl.
  - apply defaults_added_refl.
  - apply flags_raised_refl.
  - apply hop_written_refl.
  - exists []. by rewrite app_nil_r.
Qed.

Lemma search_effect_trans W C s1 v1 s2 v2 s3 v3 :
  search_effect W C s1 v1 s2 v2 → search_effect W C s2 v2 s3 v3 →
  search_effect W C s1 v1 s3 v3.
Proof.
  intros [Hc1 Hd1 Hk1 Hh1 (a1 & -> & Ha1)] [Hc2 Hd2 Hk2 Hh2 (a2 & -> & Ha2)].
  split.
  - by eapply same_config_trans.
  - by eapply defaults_added_trans.
  - by eapply flags_raised_trans.
  - by eapply hop_written_trans.
  - exists (a1 ++ a2). split; [by rewrite app_assoc|]. by apply Forall_app.
Qed.

Lemma search_effect_weaken (W W' : string * string → Z → Prop)
    (C C' : string → Prop) s1 v1 s2 v2 :
  (∀ key h, W key h → W' key h) → (∀ x, C x → C' x) →
  search_effect W C s1 v1 s2 v2 → search_effect W' C' s1 v1 s2 v2.
Proof.
  intros HW HC [Hc Hd Hk Hh (a & -> & Ha)]. split; try done.
  - by eapply hop_written_weaken.
  - exists a. split; [done|]. eapply Forall_impl; eauto.
Qed.

Lemma uniqify_from_spec {A : Type} `{EqDecision A} (ls seen : list A) :
  NoDup (uniqify_from seen ls) ∧
  ∀ x, x ∈ uniqify_from seen ls ↔ x ∈ ls ∧ x ∉ seen.
Proof.
  revert seen. induction ls as [|y ls IH]; intros seen; simpl.
  - split; [constructor|]. intros x. rewrite elem_of_nil. naive_solver.
  - destruct (decide (y ∈ seen)) as [Hin|Hnin].
    + destruct (IH seen) as [Hnd Hel]. split; [done|].
      intros x. rewrite Hel, elem_of_cons. naive_solver.
    + destruct (IH (y :: seen)) as [Hnd Hel]. split.
      * constructor; [|done]. rewrite Hel, elem_of_cons. naive_solver.
      * intros x. rewrite elem_of_cons, Hel, !elem_of_cons.
        destruct (decide (x = y)); naive_solver.
Qed.

Lemma uniqify_NoDup {A : Type} `{EqDecision A} (ls : list A) : NoDup (uniqify ls).
Proof. apply uniqify_from_spec. Qed.

Lemma uniqify_elem_of {A : Type} `{EqDecision A} (ls : list A) x :
  x ∈ uniqify ls ↔ x ∈ ls.
Proof.
  unfold uniqify. rewrite (proj2 (uniqify_from_spec ls [])), elem_of_nil. naive_solver.
Qed.

Lemma uniqify_nil_iff {A : Type} `{EqDecision A} (ls : list A) :
  uniqify ls = [] ↔ ls = [].
Proof.
  split; [|by intros ->]. destruct ls as [|x ls]; [done|].
  unfold uniqify; simpl. by destruct (decide (x ∈ [])).
Qed.

(** ** The search loops *)

Section SearchFacts.

Variable unfold_iri : string → string.
Variable abbr_iri : string → string.
Variable set_difference : list ThingClass → list ThingClass → list ThingClass.

Lemma acceptable_transfer self self' cands x :
  same_config self self' →
  defaults_added (delete_status self) (delete_status self') →
  acceptable abbr_iri self' cands x → acceptable abbr_iri self cands x.
Proof.
  intros Hc Hd [Hn Hdel]. split; [done|].
  intros Hflag Hm. apply Hdel.
  - by rewrite (sc_is_delete_equiv_tgt _ _ Hc).
  - unfold marked_deleted in *. by apply (defaults_added_true _ _ x Hd).
Qed.

Lemma search_effect_step W self valid self1 valid1 self2 valid2 cands :
  search_effect W (acceptable abbr_iri self cands) self valid self1 valid1 →
  search_effect W (acceptable abbr_iri self1 cands) self1 valid1 self2 valid2 →
  search_effect W (acceptable abbr_iri self cands) self valid self2 valid2.
Proof.
  intros H1 H2. eapply search_effect_trans; [exact H1|].
  eapply search_effect_weaken; [| |exact H2]; [done|].
  intros x. apply acceptable_transfer; apply H1.
Qed.

Lemma delete_status_getitem_effect W C self valid k :
  search_effect W C self valid (delete_status_getitem self k).2 valid.
Proof.
  unfold delete_status_getitem.
  pose proof (defaults_added_getitem (delete_status self) k) as Hd.
  destruct (defaultdict_getitem (delete_status self) k) as [b d]; simpl in *.
  split; simpl.
  - by split.
  - done.
  - apply flags_raised_refl.
  - apply hop_written_refl.
  - exists []. by rewrite app_nil_r.
Qed.

Lemma delete_status_getitem_value self k :
  (delete_status_getitem self k).1 = true ↔ marked_deleted self k.
Proof.
  unfold delete_status_getitem, marked_deleted.
  rewrite <- defaultdict_getitem_value.
  by destruct (defaultdict_getitem (delete_status self) k).
Qed.

Lemma scan_neighbours_effect src hop (cands : ThingClass → Prop) ns :
  ∀ valid num self,
    (∀ n, n ∈ ns → cands n) →
    let '(valid', _, self') := scan_neighbours abbr_iri src hop ns valid num self in
    search_effect (written_at abbr_iri src hop cands) (acceptable abbr_iri self cands)
      self valid self' valid'.
Proof.
  induction ns as [|n ns IH]; intros valid num self Hns; simpl.
  { apply search_effect_refl. }
  assert (Hrest : ∀ m, m ∈ ns → cands m).
  { intros m Hm. apply Hns. by right. }
  assert (Hn : cands n) by (apply Hns; by left).
  set (name := abbr_iri (iri n)).
  assert (∃ b self1,
    (if is_delete_equiv_tgt self then delete_status_getitem self name
     else (false, self)) = (b, self1) ∧
    search_effect (written_at abbr_iri src hop cands) (acceptable abbr_iri self cands)
      self valid self1 valid ∧
    (b = false → is_delete_equiv_tgt self = true → ¬ marked_deleted self name))
    as (b & self1 & -> & Heff1 & Hb).
  { destruct (is_delete_equiv_tgt self) eqn:Hflag.
    - exists (delete_status_getitem self name).1, (delete_status_getitem self name).2.
      split; [by destruct (delete_status_getitem self name)|]. split.
      + apply delete_status_getitem_effect.
      + intros Hf _ Hm. apply delete_status_getitem_value in Hm. congruence.
    - exists false, self. split; [done|]. split; [apply search_effect_refl|done]. }
  destruct b.
  - specialize (IH valid num self1 Hrest).
    destruct (scan_neighbours _ _ _ _ _ _ self1) as [[valid' num'] self'].
    eapply search_effect_step; eauto.
  - set (self2 := set_construct_status _ _).
    assert (Heff2 : search_effect (written_at abbr_iri src hop cands) (acceptable abbr_iri self cands)
              self valid self2 (valid ++ [name])).
    { eapply search_effect_trans; [exact Heff1|].
      split; simpl.
      - by split.
      - apply defaults_added_refl.
      - apply flags_raised_insert.
      - apply hop_written_insert. split; [done|]. by exists n.
      - exists [name]. split; [done|]. constructor; [|done].
        split; [by exists n|]. by apply Hb. }
    destruct (num + 1 =? _); [exact Heff2|].
    specialize (IH (valid ++ [name]) (num + 1) self2 Hrest).
    destruct (scan_neighbours _ _ _ _ _ _ self2) as [[valid' num'] self'].
    eapply search_effect_step; eauto.
Qed.

Lemma scan_frontier_effect src hop (cands : ThingClass → Prop) frontier :
  ∀ cur explored valid num self,
    (∀ e n, e ∈ frontier → n ∈ move self e → cands n) →
    let '(cur', explored', valid', _, self') :=
      scan_frontier abbr_iri src hop frontier cur explored valid num self in
    search_effect (written_at abbr_iri src hop cands) (acceptable abbr_iri self cands)
      self valid self' valid' ∧
    cur' = cur ++ flat_map (move self) frontier ∧
    explored' = explored ++ frontier.
Proof.
  induction frontier as [|ent frontier IH];
    intros cur explored valid num self Hcands; simpl.
  { split; [apply search_effect_refl|]. by rewrite !app_nil_r. }
  pose proof (scan_neighbours_effect src hop cands (move self ent)
                valid num self) as H1.
  destruct (scan_neighbours _ _ _ _ _ _ self) as [[valid1 num1] self1].
  assert (Heff1 : search_effect (written_at abbr_iri src hop cands) (acceptable abbr_iri self cands)
                    self valid self1 valid1).
  { apply H1. intros n Hn. apply (Hcands ent); [by left|done]. }
  assert (Hmv : move self1 = move self) by apply Heff1.
  specialize (IH (cur ++ move self ent) (explored ++ [ent]) valid1 num1 self1).
  destruct (scan_frontier _ _ _ _ _ _ _ _ self1)
    as [[[[cur' explored'] valid'] num'] self'].
  destruct IH as (Heff2 & -> & ->).
  { intros e n He Hn. rewrite Hmv in Hn. apply (Hcands e); [by right|done]. }
  split; [by eapply search_effect_step|].
  rewrite Hmv, <- !app_assoc. done.
Qed.

(** The loop always leaves by its condition when it is given at least
    [max_hop + 1 - hop] units of fuel. *)
Lemma bfs_while_total src fuel :
  ∀ frontier explored hop valid num self,
    (Z.to_nat (max_hop self + 1 - hop) ≤ fuel)%nat →
    is_Some (bfs_while abbr_iri set_difference fuel src
               frontier explored hop valid num self).
Proof.
  induction fuel as [|fuel IH]; intros frontier explored hop valid num self Hfuel;
    simpl.
  - destruct (Z.of_nat (length valid) <? max_subs_ratio self); simpl; [|done].
    destruct (hop <=? max_hop self) eqn:Hhop; [|done].
    apply Z.leb_le in Hhop. lia.
  - destruct (_ && _); [|done].
    pose proof (scan_frontier_effect src hop (λ _, True) frontier
                  [] explored valid num self) as H1.
    destruct (scan_frontier _ _ _ _ _ _ _ _ self)
      as [[[[cur' explored'] valid'] num'] self'].
    destruct H1 as (Heff & _); [done|].
    apply IH. rewrite (sc_max_hop _ _ (se_config _ _ _ _ _ _ Heff)). lia.
Qed.

Section Levels.

(** [F k e]: class [e] may be a member of the frontier after [k] hops. *)
Variable F : nat → ThingClass → Prop.
Variable mv : ThingClass → list ThingClass.
Hypothesis F_move : ∀ k e n, F k e → n ∈ mv e → F (S k) n.
Hypothesis F_difference :
  ∀ k xs ys, Forall (F k) xs → Forall (F k) (set_difference xs ys).

Lemma bfs_while_effect src fuel :
  ∀ frontier explored hop valid num self valid' self',
    move self = mv → 1 ≤ hop →
    Forall (F (Z.to_nat (hop - 1))) frontier →
    bfs_while abbr_iri set_difference fuel src
      frontier explored hop valid num self = Some (valid', self') →
    search_effect (written_from abbr_iri F src hop (max_hop self))
      (acceptable abbr_iri self (met_from F hop (max_hop self)))
      self valid self' valid'.
Proof.
  induction fuel as [|fuel IH];
    intros frontier explored hop valid num self valid' self' Hmv Hhop Hfr;
    simpl.
  - destruct (_ && _); [done|]. intros [= <- <-]. apply search_effect_refl.
  - destruct (Z.of_nat (length valid) <? max_subs_ratio self); simpl;
      [|intros [= <- <-]; apply search_effect_refl].
    destruct (hop <=? max_hop self) eqn:Hle;
      [|intros [= <- <-]; apply search_effect_refl].
    apply Z.leb_le in Hle.
    pose proof (scan_frontier_effect src hop (F (Z.to_nat hop)) frontier
                  [] explored valid num self) as H1.
    destruct (scan_frontier _ _ _ _ _ _ _ _ self)
      as [[[[cur1 explored1] valid1] num1] self1].
    assert (Hnext : ∀ e n, e ∈ frontier → n ∈ mv e → F (Z.to_nat hop) n).
    { intros e n He Hn. rewrite Forall_forall in Hfr.
      replace (Z.to_nat hop) with (S (Z.to_nat (hop - 1))) by lia.
      eapply F_move; eauto. }
    destruct H1 as (Heff1 & -> & ->); [by rewrite Hmv|].
    intros Hrun.
    assert (Hc1 : same_config self self1) by apply Heff1.
    apply IH in Hrun.
    + eapply search_effect_step.
      * eapply search_effect_weaken; [| |exact Heff1].
        -- intros key h [-> Hn]. split; [lia|done].
        -- intros x [(n & Hn & ->) Hd]. split; [|done].
           exists n. split; [|done]. exists hop. split; [lia|done].
      * rewrite (sc_max_hop _ _ Hc1) in Hrun.
        eapply search_effect_weaken; [| |exact Hrun].
        -- intros key h [Hh Hn]. split; [lia|done].
        -- intros x [(n & (h & Hh & Hn) & ->) Hd]. split; [|done].
           exists n. split; [|done]. exists h. split; [lia|done].
    + by rewrite (sc_move _ _ Hc1).
    + lia.
    + apply F_difference. replace (hop + 1 - 1) with hop by lia.
      simpl. rewrite Hmv. rewrite Forall_forall. intros n Hn.
      apply list_elem_of_In, in_flat_map in Hn as (e & He & Hn).
      apply (Hnext e); by apply list_elem_of_In.
Qed.

Lemma subs_from_an_equiv_effect self src tgt ent :
  move self = mv → F 0%nat ent →
  search_first unfold_iri (tgt_onto self) tgt = Ok ent →
  ∃ valid self',
    subs_from_an_equiv unfold_iri abbr_iri set_difference self src tgt
      = Ok (uniqify (map (λ x, (src, x)) valid), self') ∧
    search_effect (written_from abbr_iri F src 1 (max_hop self))
      (acceptable abbr_iri self (met_from F 1 (max_hop self)))
      self [] self' valid.
Proof.
  intros Hmv H0 Hent. unfold subs_from_an_equiv. rewrite Hent. simpl.
  destruct (bfs_while_total src (Z.to_nat (max_hop self))
              [ent] [] 1 [] 0 self) as [[valid self'] Hrun]; [lia|].
  rewrite Hrun. exists valid, self'. split; [done|].
  eapply bfs_while_effect; [done|lia| |exact Hrun].
  constructor; [exact H0|constructor].
Qed.

End Levels.

Lemma subs_from_an_equiv_unresolved self src tgt :
  owl_search (tgt_onto self) (unfold_iri tgt) = [] →
  subs_from_an_equiv unfold_iri abbr_iri set_difference self src tgt
    = Raise IndexError.
Proof. intros H. unfold subs_from_an_equiv, search_first. by rewrite H. Qed.

End SearchFacts.

(** ** Properties of the per-equivalence search *)

Section SearchProperties.

Variable unfold_iri : string → string.
Variable abbr_iri : string → string.
Variable set_difference : list ThingClass → list ThingClass → list ThingClass.

Lemma search_first_Ok_inv onto name ent :
  search_first unfold_iri onto name = Ok ent →
  ∃ rest, owl_search onto (unfold_iri name) = ent :: rest.
Proof.
  unfold search_first. destruct (owl_search _ _) as [|e rest]; [done|].
  intros [= ->]. by exists rest.
Qed.

Lemma subs_from_an_equiv_resolves self src tgt r :
  subs_from_an_equiv unfold_iri abbr_iri set_difference self src tgt = Ok r →
  ∃ ent, search_first unfold_iri (tgt_onto self) tgt = Ok ent.
Proof.
  unfold subs_from_an_equiv.
  destruct (search_first _ _ _) as [ent| |]; [|done..]. by exists ent.
Qed.

(** C7: every hop distance that [subs_from_an_equiv] stores in
    [hop_record] lies between 1 and [max_hop]: an entry of the record
    after the call is an entry the record had before it, or its value is
    in that range. *)
Theorem hop_distance_within_bounds self src tgt subs self' :
  subs_from_an_equiv unfold_iri abbr_iri set_difference self src tgt
    = Ok (subs, self') →
  ∀ key h, hop_record self' !! key = Some h →
    hop_record self !! key = Some h ∨ 1 ≤ h ≤ max_hop self.
Proof.
  intros Hrun key h Hkey.
  destruct (subs_from_an_equiv_resolves _ _ _ _ Hrun) as [ent Hent].
  destruct (subs_from_an_equiv_effect unfold_iri abbr_iri set_difference
              (λ _ _, True) (move self)) with (self := self) (src := src)
              (tgt := tgt) (ent := ent)
    as (valid & self'' & Heq & Heff); try done.
  { intros. by apply Forall_forall. }
  rewrite Heq in Hrun. injection Hrun as _ <-.
  destruct (se_hop _ _ _ _ _ _ Heff key h Hkey) as [?|[? _]]; [by left|by right].
Qed.

(** C10: with [max_hop < 1] or [max_subs_ratio <= 0] the body of the
    search loop never runs: for a target that resolves, the search returns
    the empty list and the generator as it was. *)
Theorem search_with_exhausted_bounds self src tgt ent :
  max_hop self < 1 ∨ max_subs_ratio self ≤ 0 →
  search_first unfold_iri (tgt_onto self) tgt = Ok ent →
  subs_from_an_equiv unfold_iri abbr_iri set_difference self src tgt
    = Ok ([], self).
Proof.
  intros Hbounds Hent. unfold subs_from_an_equiv. rewrite Hent. simpl.
  assert (Hcond : (Z.of_nat (length (@nil string)) <? max_subs_ratio self)
                  && (1 <=? max_hop self) = false).
  { apply andb_false_iff. destruct Hbounds as [H|H].
    - right. apply Z.leb_gt. lia.
    - left. apply Z.ltb_ge. simpl. lia. }
  destruct (Z.to_nat (max_hop self)) as [|fuel]; simpl in *; by rewrite Hcond.
Qed.

End SearchProperties.

(** ** The two passes *)

Section PassFacts.

Variable unfold_iri : string → string.
Variable abbr_iri : string → string.
Variable set_difference : list ThingClass → list ThingClass → list ThingClass.

Lemma subs_from_an_equiv_total self src tgt :
  owl_search (tgt_onto self) (unfold_iri tgt) ≠ [] →
  ∃ r, subs_from_an_equiv unfold_iri abbr_iri set_difference self src tgt = Ok r.
Proof.
  intros Hres.
  destruct (owl_search (tgt_onto self) (unfold_iri tgt)) as [|ent rest] eqn:E;
    [done|].
  destruct (subs_from_an_equiv_effect unfold_iri abbr_iri set_difference
              (λ _ _, True) (move self)) with (self := self) (src := src)
              (tgt := tgt) (ent := ent)
    as (valid & self' & Heq & _); try done.
  - intros. by apply Forall_forall.
  - unfold search_first. by rewrite E.
  - eauto.
Qed.

(** The fuel given to the search loop is always enough. *)
Lemma subs_from_an_equiv_not_OutOfFuel self src tgt :
  subs_from_an_equiv unfold_iri abbr_iri set_difference self src tgt ≠ OutOfFuel.
Proof.
  destruct (owl_search (tgt_onto self) (unfold_iri tgt)) as [|ent rest] eqn:E.
  - by rewrite subs_from_an_equiv_unresolved.
  - destruct (subs_from_an_equiv_total self src tgt) as [r ->]; [|done].
    by rewrite E.
Qed.

Lemma static_mark_targets_effect pairs :
  ∀ self self',
    static_mark_targets unfold_iri pairs self = Ok self' →
    same_config self self' ∧
    sub_pairs self' = sub_pairs self ∧
    hop_record self' = hop_record self ∧
    construct_status self' = construct_status self ∧
    ∀ t, marked_deleted self' t ↔
         marked_deleted self t ∨
         ∃ s ent, (s, t) ∈ pairs ∧
                  search_first unfold_iri (tgt_onto self) t = Ok ent ∧
                  move self ent ≠ [].
Proof.
  induction pairs as [|[s0 t0] pairs IH]; intros self self'; simpl.
  - intros [= <-]. repeat split; try done; [by left|].
    intros [?|(s & ent & Hin & _)]; [done|]. by apply elem_of_nil in Hin.
  - destruct (search_first unfold_iri (tgt_onto self) t0) as [ent0| |] eqn:Hent;
      simpl; [|done..].
    intros Hrun. apply IH in Hrun as (Hc & Hsp & Hhr & Hcs & Hdel). clear IH.
    destruct (move self ent0) as [|n0 ns0] eqn:Hmv.
    + repeat split; try apply Hc; try done.
      * intros H. apply Hdel in H as [?|(s & ent & Hin & He & Hne)]; [by left|].
        right. exists s, ent. split; [by right|done].
      * intros [H|(s & ent & Hin & He & Hne)]; apply Hdel; [by left|].
        apply elem_of_cons in Hin as [[= -> ->]|Hin].
        -- rewrite Hent in He. injection He as <-. by rewrite Hmv in Hne.
        -- right. eauto.
    + simpl in *. repeat split; try apply Hc; try done.
      * intros H. apply Hdel in H as [H|(s & ent & Hin & He & Hne)].
        -- unfold marked_deleted in *. simpl in H.
           destruct (decide (t0 = t)) as [->|Hne].
           ++ right. exists s0, ent0. split; [by left|]. by rewrite Hmv.
           ++ left. by rewrite lookup_insert_ne in H.
        -- right. exists s, ent. split; [by right|done].
      * intros [H|(s & ent & Hin & He & Hne)]; apply Hdel.
        -- left. unfold marked_deleted in *. simpl.
           destruct (decide (t0 = t)) as [->|Hne].
           ++ by rewrite lookup_insert_eq.
           ++ by rewrite lookup_insert_ne.
        -- apply elem_of_cons in Hin as [[= -> ->]|Hin].
           ++ left. unfold marked_deleted. simpl. by rewrite lookup_insert_eq.
           ++ right. eauto.
Qed.

Lemma static_mark_targets_total pairs :
  ∀ self, targets_resolve unfold_iri (tgt_onto self) pairs →
    ∃ self', static_mark_targets unfold_iri pairs self = Ok self'.
Proof.
  induction pairs as [|[s0 t0] pairs IH]; intros self Hres; simpl; [eauto|].
  unfold search_first.
  destruct (owl_search (tgt_onto self) (unfold_iri t0)) as [|ent rest] eqn:E.
  { exfalso. apply (Hres s0 t0); [by left|done]. }
  simpl. apply IH. intros s t Hin.
  destruct (move self ent); simpl; apply (Hres s t); by right.
Qed.

Section Levels.

Variable G : ThingClass → nat → ThingClass → Prop.
Variable mv : ThingClass → list ThingClass.
Hypothesis G_anchor : ∀ ent, G ent 0%nat ent.
Hypothesis G_move : ∀ ent k e n, G ent k e → n ∈ mv e → G ent (S k) n.
Hypothesis G_difference :
  ∀ ent k xs ys, Forall (G ent k) xs → Forall (G ent k) (set_difference xs ys).

Lemma subs_from_an_equiv_Ok_inv self src tgt subs self' :
  move self = mv →
  subs_from_an_equiv unfold_iri abbr_iri set_difference self src tgt
    = Ok (subs, self') →
  ∃ ent valid,
    search_first unfold_iri (tgt_onto self) tgt = Ok ent ∧
    subs = uniqify (map (λ x, (src, x)) valid) ∧
    search_effect (written_from abbr_iri (G ent) src 1 (max_hop self))
      (acceptable abbr_iri self (met_from (G ent) 1 (max_hop self)))
      self [] self' valid.
Proof.
  intros Hmv Hrun.
  destruct (subs_from_an_equiv_resolves _ _ _ _ _ _ _ Hrun) as [ent Hent].
  destruct (subs_from_an_equiv_effect unfold_iri abbr_iri set_difference
              (G ent) mv) with (self := self) (src := src)
              (tgt := tgt) (ent := ent)
    as (valid & self'' & Heq & Heff); try done.
  { apply G_move. }
  { apply G_difference. }
  rewrite Heq in Hrun. injection Hrun as <- <-. by exists ent, valid.
Qed.

Lemma static_collect_effect pairs :
  ∀ self self',
    move self = mv →
    static_collect unfold_iri abbr_iri set_difference pairs self = Ok self' →
    same_config self self' ∧
    defaults_added (delete_status self) (delete_status self') ∧
    flags_raised (construct_status self) (construct_status self') ∧
    hop_written
      (pass_written unfold_iri abbr_iri G (tgt_onto self) (max_hop self) pairs)
      (hop_record self) (hop_record self').
Proof.
  induction pairs as [|[s0 t0] pairs IH]; intros self self' Hmv; simpl.
  - intros [= <-]. split; [apply same_config_refl|].
    split; [apply defaults_added_refl|].
    split; [apply flags_raised_refl|apply hop_written_refl].
  - destruct (subs_from_an_equiv _ _ _ self s0 t0) as [[subs self1]| |] eqn:Hrun;
      simpl; [|done..].
    apply subs_from_an_equiv_Ok_inv in Hrun
      as (ent & valid & Hent & -> & [Hc Hd Hk Hh _]); [|done].
    intros Hrest. apply IH in Hrest as (Hc2 & Hd2 & Hk2 & Hh2);
      [|simpl; by rewrite (sc_move _ _ Hc)].
    simpl in *. split; [|split; [|split]].
    + eapply same_config_trans; [exact Hc|]. destruct Hc2; by split.
    + by eapply defaults_added_trans.
    + by eapply flags_raised_trans.
    + eapply hop_written_trans.
      * eapply hop_written_weaken; [|exact Hh]. intros key h Hw.
        exists s0, t0, ent. split; [by left|done].
      * eapply hop_written_weaken; [|exact Hh2].
        intros key h (s & t & e & Hin & He & Hw).
        rewrite (sc_tgt_onto _ _ Hc) in He. rewrite (sc_max_hop _ _ Hc) in Hw.
        exists s, t, e. split; [by right|done].
Qed.

End Levels.

Lemma static_collect_total pairs :
  ∀ self, targets_resolve unfold_iri (tgt_onto self) pairs →
    ∃ self', static_collect unfold_iri abbr_iri set_difference pairs self
             = Ok self'.
Proof.
  induction pairs as [|[s0 t0] pairs IH]; intros self Hres; simpl; [eauto|].
  destruct (subs_from_an_equiv_total self s0 t0) as [[subs self1] Hrun].
  { apply (Hres s0 t0). by left. }
  rewrite Hrun. simpl. apply IH.
  apply (subs_from_an_equiv_Ok_inv (λ _ _ _, True) (move self)) in Hrun
    as (ent & valid & _ & _ & [Hc _ _ _ _]); try done.
  - simpl. rewrite (sc_tgt_onto _ _ Hc). intros s t Hin.
    apply (Hres s t). by right.
  - intros. by apply Forall_forall.
Qed.

End PassFacts.

(** ** The online pass *)

Section OnlineFacts.

Variable unfold_iri : string → string.
Variable abbr_iri : string → string.
Variable set_difference : list ThingClass → list ThingClass → list ThingClass.

Local Abbreviation online_step := (online_step unfold_iri abbr_iri set_difference).
Local Abbreviation online_loop := (online_loop unfold_iri abbr_iri set_difference).
Local Abbreviation searched_at := (searched_at unfold_iri abbr_iri set_difference).

Lemma set_construct_status_id self :
  set_construct_status (construct_status self) self = self.
Proof. by destruct self. Qed.

Lemma construct_status_getitem_marked self k :
  marked_constructed self k → construct_status_getitem self k = (true, self).
Proof.
  unfold marked_constructed, construct_status_getitem, defaultdict_getitem.
  intros ->. by rewrite set_construct_status_id.
Qed.

Lemma construct_status_getitem_unmarked self k :
  ¬ marked_constructed self k → (construct_status_getitem self k).1 = false.
Proof.
  unfold marked_constructed, construct_status_getitem, defaultdict_getitem.
  by destruct (construct_status self !! k) as [[]|].
Qed.

Lemma construct_status_getitem_frame self k :
  let self' := (construct_status_getitem self k).2 in
  same_config self self' ∧ sub_pairs self' = sub_pairs self ∧
  hop_record self' = hop_record self ∧
  delete_status self' = delete_status self.
Proof.
  unfold construct_status_getitem.
  destruct (defaultdict_getitem (construct_status self) k) as [b d]. simpl.
  by repeat split.
Qed.

Lemma online_loop_app pre post self :
  online_loop (pre ++ post) self = (mid ← online_loop pre self; online_loop post mid).
Proof.
  revert self. induction pre as [|[s t] pre IH]; intros self; simpl; [done|].
  destruct (online_step self s t) as [next| |]; simpl; [apply IH|done..].
Qed.

Lemma online_loop_prefix_Ok pre post self final :
  online_loop (pre ++ post) self = Ok final →
  ∃ mid, online_loop pre self = Ok mid ∧ online_loop post mid = Ok final.
Proof.
  rewrite online_loop_app.
  destruct (online_loop pre self) as [mid| |]; simpl; [eauto|done..].
Qed.

(** The two ways an iteration of the online loop with deletion on can end
    well. *)
Lemma online_step_cases self s t next :
  is_delete_equiv_tgt self = true →
  online_step self s t = Ok next →
  (marked_constructed self t ∧ next = self) ∨
  (∃ cur_subs mid', searched_at self s t cur_subs mid' ∧
     is_delete_equiv_tgt mid' = true ∧
     next = set_sub_pairs (sub_pairs mid' ++ cur_subs)
              match cur_subs with
              | [] => mid'
              | _ :: _ =>
                  set_delete_status (<[t := true]> (delete_status mid')) mid'
              end).
Proof.
  intros Hflag. unfold online_step. rewrite Hflag.
  destruct (decide (construct_status self !! t = Some true)) as [Hm|Hm].
  - rewrite construct_status_getitem_marked by done. intros [= <-]. by left.
  - pose proof (construct_status_getitem_unmarked self t Hm) as Hb.
    pose proof (construct_status_getitem_frame self t) as (Hc & _).
    destruct (construct_status_getitem self t) as [b self1] eqn:Hget.
    simpl in *. subst b.
    destruct (subs_from_an_equiv _ _ _ self1 s t) as [[cur_subs mid']| |] eqn:Hrun;
      simpl; [|done..].
    assert (Hflag' : is_delete_equiv_tgt mid' = true).
    { apply (subs_from_an_equiv_Ok_inv unfold_iri abbr_iri set_difference
               (λ _ _ _, True) (move self1)) in Hrun
        as (ent & valid & _ & _ & [Hc' _ _ _ _]); try done.
      - by rewrite (sc_is_delete_equiv_tgt _ _ Hc'),
                   (sc_is_delete_equiv_tgt _ _ Hc).
      - intros. by apply Forall_forall. }
    rewrite Hflag'. intros [= <-]. right. exists cur_subs, mid'.
    split; [split; [done|by rewrite Hget]|]. split; [done|].
    by destruct cur_subs.
Qed.

Lemma online_step_skip self s t :
  is_delete_equiv_tgt self = true → marked_constructed self t →
  online_step self s t = Ok self.
Proof.
  intros Hflag Hm. unfold online_step.
  by rewrite Hflag, construct_status_getitem_marked.
Qed.

Lemma searched_at_effect self s t cur_subs mid' :
  searched_at self s t cur_subs mid' →
  same_config self mid' ∧
  (∀ k, marked_deleted mid' k ↔ marked_deleted self k) ∧
  (∀ x, (s, x) ∈ cur_subs → is_delete_equiv_tgt self = true →
        ¬ marked_deleted self x) ∧
  (∀ p, p ∈ cur_subs → p.1 = s).
Proof.
  intros [_ Hrun].
  pose proof (construct_status_getitem_frame self t) as (Hc & _ & _ & Hd).
  simpl in Hc, Hd.
  apply (subs_from_an_equiv_Ok_inv unfold_iri abbr_iri set_difference
           (λ _ _ _, True) (move (construct_status_getitem self t).2)) in Hrun
    as (ent & valid & _ & -> & [Hc' Hd' _ _ (added & Hv & Hacc)]); try done.
  2:{ intros. by apply Forall_forall. }
  simpl in Hv. subst added. rewrite Hd in Hd'.
  split; [by eapply same_config_trans|]. split; [|split].
  - intros k. apply defaults_added_true, Hd'.
  - intros x Hx Hflag. apply uniqify_elem_of, list_elem_of_fmap in Hx
      as (y & [= <-] & Hy).
    rewrite Forall_forall in Hacc. destruct (Hacc x Hy) as [_ Hnd].
    unfold marked_deleted in *. rewrite Hd in Hnd. apply Hnd.
    by rewrite (sc_is_delete_equiv_tgt _ _ Hc).
  - intros p Hp. apply uniqify_elem_of, list_elem_of_fmap in Hp
      as (y & -> & Hy). done.
Qed.

Lemma online_step_searched self s t cur_subs mid' :
  is_delete_equiv_tgt self = true →
  searched_at self s t cur_subs mid' →
  ∃ next, online_step self s t = Ok next ∧
    sub_pairs next = sub_pairs mid' ++ cur_subs ∧
    ∀ k, marked_deleted next k ↔
         marked_deleted self k ∨ (k = t ∧ cur_subs ≠ []).
Proof.
  intros Hflag Hs.
  destruct (searched_at_effect _ _ _ _ _ Hs) as (Hc & Hdel & _).
  destruct Hs as [Hm Hrun].
  unfold online_step. rewrite Hflag.
  pose proof (construct_status_getitem_unmarked self t Hm) as Hb.
  destruct (construct_status_getitem self t) as [b self1]. simpl in *. subst b.
  rewrite Hrun. simpl.
  rewrite (sc_is_delete_equiv_tgt _ _ Hc), Hflag.
  eexists. split; [done|]. destruct cur_subs as [|p cur_subs]; simpl.
  - split; [done|]. intros k. rewrite <- Hdel. unfold marked_deleted. simpl.
    naive_solver.
  - split; [done|]. intros k. rewrite <- Hdel. unfold marked_deleted. simpl.
    destruct (decide (t = k)) as [->|Hne].
    + rewrite lookup_insert_eq. naive_solver.
    + rewrite lookup_insert_ne by done. naive_solver.
Qed.

Lemma online_loop_deleted_iff pairs :
  ∀ self final,
    is_delete_equiv_tgt self = true →
    online_loop pairs self = Ok final →
    ∀ t, marked_deleted final t ↔
         marked_deleted self t ∨
         ∃ pre s post mid cur_subs mid',
           pairs = pre ++ (s, t) :: post ∧ online_loop pre self = Ok mid ∧
           searched_at mid s t cur_subs mid' ∧ cur_subs ≠ [].
Proof.
  induction pairs as [|[s0 t0] pairs IH]; intros self final Hflag; simpl.
  { intros [= <-] t. split; [by left|]. intros [?|(pre & ? & ? & ? & ? & ? & E & _)];
      [done|]. by destruct pre. }
  destruct (online_step self s0 t0) as [next| |] eqn:Hstep; simpl; [|done..].
  intros Hrest t.
  destruct (online_step_cases _ _ _ _ Hflag Hstep)
    as [[Hm ->]|(cur0 & mid0 & Hs0 & Hflag0 & Hnext)].
  - rewrite (IH _ _ Hflag Hrest t). split.
    + intros [?|(pre & s & post & mid & cur & mid' & -> & Hpre & Hs & Hne)];
        [by left|]. right.
      exists ((s0, t0) :: pre), s, post, mid, cur, mid'. simpl.
      by rewrite Hstep.
    + intros [?|(pre & s & post & mid & cur & mid' & E & Hpre & Hs & Hne)];
        [by left|]. destruct pre as [|p pre]; simpl in *.
      * simplify_eq. by destruct Hs as [Hnm _].
      * simplify_eq. rewrite Hstep in Hpre. simpl in Hpre.
        right. by exists pre, s, post, mid, cur, mid'.
  - destruct (online_step_searched _ _ _ _ _ Hflag Hs0)
      as (next' & Hstep' & _ & Hdel).
    rewrite Hstep in Hstep'. injection Hstep' as <-.
    assert (Hflag1 : is_delete_equiv_tgt next = true).
    { subst next. by destruct cur0. }
    rewrite (IH _ _ Hflag1 Hrest t), Hdel. split.
    + intros [[?|[-> Hne]]|(pre & s & post & mid & cur & mid' & -> & Hpre & Hs & Hne)].
      * by left.
      * right. by exists [], s0, pairs, self, cur0, mid0.
      * right. exists ((s0, t0) :: pre), s, post, mid, cur, mid'. simpl.
        by rewrite Hstep.
    + intros [?|(pre & s & post & mid & cur & mid' & E & Hpre & Hs & Hne)];
        [by left; left|]. destruct pre as [|p pre]; simpl in *.
      * simplify_eq. left; right. split; [done|].
        destruct Hs as [_ Hr], Hs0 as [_ Hr0]. rewrite Hr in Hr0.
        by simplify_eq.
      * simplify_eq. rewrite Hstep in Hpre. simpl in Hpre.
        right. by exists pre, s, post, mid, cur, mid'.
Qed.

Lemma online_loop_flag pairs :
  ∀ self final,
    online_loop pairs self = Ok final →
    is_delete_equiv_tgt final = is_delete_equiv_tgt self.
Proof.
  induction pairs as [|[s0 t0] pairs IH]; intros self final; simpl.
  { by intros [= <-]. }
  destruct (online_step self s0 t0) as [next| |] eqn:Hstep; simpl; [|done..].
  intros Hrest. rewrite (IH _ _ Hrest). clear IH Hrest.
  unfold online_step in Hstep.
  destruct (is_delete_equiv_tgt self) eqn:Hflag.
  - destruct (online_step_cases self s0 t0 next Hflag)
      as [[_ ->]|(cur0 & mid0 & _ & Hf & ->)]; [|done|by destruct cur0].
    unfold online_step. by rewrite Hflag.
  - destruct (subs_from_an_equiv _ _ _ self s0 t0) as [[cur mid']| |] eqn:Hrun;
      simpl in Hstep; [|done..].
    apply (subs_from_an_equiv_Ok_inv unfold_iri abbr_iri set_difference
             (λ _ _ _, True) (move self)) in Hrun
      as (ent & valid & _ & _ & [Hc _ _ _ _]); try done.
    2:{ intros. by apply Forall_forall. }
    rewrite (sc_is_delete_equiv_tgt _ _ Hc), Hflag in Hstep.
    injection Hstep as <-. simpl. by rewrite (sc_is_delete_equiv_tgt _ _ Hc).
Qed.

Section Levels.

Variable G : ThingClass → nat → ThingClass → Prop.
Variable mv : ThingClass → list ThingClass.
Hypothesis G_anchor : ∀ ent, G ent 0%nat ent.
Hypothesis G_move : ∀ ent k e n, G ent k e → n ∈ mv e → G ent (S k) n.
Hypothesis G_difference :
  ∀ ent k xs ys, Forall (G ent k) xs → Forall (G ent k) (set_difference xs ys).

Lemma online_step_effect self s t next :
  move self = mv →
  online_step self s t = Ok next →
  same_config self next ∧
  hop_written
    (pass_written unfold_iri abbr_iri G (tgt_onto self) (max_hop self) [(s, t)])
    (hop_record self) (hop_record next) ∧
  (∀ k, marked_deleted next k → marked_deleted self k ∨ k = t).
Proof.
  intros Hmv. unfold online_step.
  assert (∃ b self1,
    (if is_delete_equiv_tgt self then construct_status_getitem self t
     else (false, self)) = (b, self1) ∧
    same_config self self1 ∧ hop_record self1 = hop_record self ∧
    delete_status self1 = delete_status self)
    as (b & self1 & -> & Hc1 & Hh1 & Hd1).
  { destruct (is_delete_equiv_tgt self).
    - pose proof (construct_status_getitem_frame self t) as (? & _ & ? & ?).
      destruct (construct_status_getitem self t) as [b self1]. by exists b, self1.
    - exists false, self. split; [done|]. split; [apply same_config_refl|done]. }
  destruct b.
  { intros [= <-]. split; [done|]. rewrite Hh1. split; [apply hop_written_refl|].
    intros k. unfold marked_deleted. rewrite Hd1. by left. }
  destruct (subs_from_an_equiv _ _ _ self1 s t) as [[cur mid']| |] eqn:Hrun;
    simpl; [|done..].
  apply (subs_from_an_equiv_Ok_inv unfold_iri abbr_iri set_difference G mv)
    in Hrun as (ent & valid & Hent & -> & [Hc Hd _ Hh _]); try done.
  2:{ by rewrite (sc_move _ _ Hc1). }
  intros [= <-]. split; [|split].
  - eapply same_config_trans; [exact Hc1|]. eapply same_config_trans; [exact Hc|].
    destruct (is_delete_equiv_tgt mid'); [destruct (uniqify _)|]; by split.
  - rewrite <- Hh1.
    rewrite <- (sc_tgt_onto _ _ Hc1), <- (sc_max_hop _ _ Hc1).
    eapply hop_written_weaken with
      (W := written_from abbr_iri (G ent) s 1 (max_hop self1)).
    + intros key h Hw. exists s, t, ent. split; [by left|done].
    + destruct (is_delete_equiv_tgt mid'); [destruct (uniqify _)|]; exact Hh.
  - intros k Hk. destruct (decide (k = t)) as [|Hne]; [by right|left].
    unfold marked_deleted in *. rewrite <- Hd1.
    apply (defaults_added_true _ _ k Hd).
    destruct (is_delete_equiv_tgt mid'); [destruct (uniqify _)|]; simpl in Hk;
      try done. by rewrite lookup_insert_ne in Hk.
Qed.

Lemma online_loop_effect pairs :
  ∀ self final,
    move self = mv →
    online_loop pairs self = Ok final →
    same_config self final ∧
    hop_written
      (pass_written unfold_iri abbr_iri G (tgt_onto self) (max_hop self) pairs)
      (hop_record self) (hop_record final) ∧
    (∀ k, marked_deleted final k →
          marked_deleted self k ∨ ∃ s, (s, k) ∈ pairs).
Proof.
  induction pairs as [|[s0 t0] pairs IH]; intros self final Hmv; simpl.
  { intros [= <-]. split; [apply same_config_refl|].
    split; [apply hop_written_refl|]. intros k ?. by left. }
  destruct (online_step self s0 t0) as [next| |] eqn:Hstep; simpl; [|done..].
  apply online_step_effect in Hstep as (Hc1 & Hh1 & Hd1); [|done].
  intros Hrest. apply IH in Hrest as (Hc2 & Hh2 & Hd2);
    [|by rewrite (sc_move _ _ Hc1)].
  split; [by eapply same_config_trans|]. split.
  - eapply hop_written_trans.
    + eapply hop_written_weaken; [|exact Hh1].
      intros key h (s & t & e & Hin & He & Hw).
      apply list_elem_of_singleton in Hin as [= -> ->].
      exists s0, t0, e. split; [by left|done].
    + eapply hop_written_weaken; [|exact Hh2].
      intros key h (s & t & e & Hin & He & Hw).
      rewrite (sc_tgt_onto _ _ Hc1) in He. rewrite (sc_max_hop _ _ Hc1) in Hw.
      exists s, t, e. split; [by right|done].
  - intros k Hk. destruct (Hd2 k Hk) as [Hk1|[s Hin]].
    + destruct (Hd1 k Hk1) as [?| ->]; [by left|]. right. exists s0. by left.
    + right. exists s. by right.
Qed.

End Levels.

Lemma online_loop_total pairs :
  ∀ self, targets_resolve unfold_iri (tgt_onto self) pairs →
    ∃ final, online_loop pairs self = Ok final.
Proof.
  induction pairs as [|[s0 t0] pairs IH]; intros self Hres; simpl; [eauto|].
  assert (∃ next, online_step self s0 t0 = Ok next) as [next Hstep].
  { unfold online_step.
    assert (∃ b self1,
      (if is_delete_equiv_tgt self then construct_status_getitem self t0
       else (false, self)) = (b, self1) ∧ tgt_onto self1 = tgt_onto self)
      as (b & self1 & -> & Ho).
    { destruct (is_delete_equiv_tgt self).
      - pose proof (construct_status_getitem_frame self t0) as ([] & _).
        destruct (construct_status_getitem self t0) as [b self1].
        by exists b, self1.
      - by exists false, self. }
    destruct b; [eauto|].
    destruct (subs_from_an_equiv_total unfold_iri abbr_iri set_difference
                self1 s0 t0) as [[cur mid'] ->]; [|simpl; eauto].
    rewrite Ho. apply (Hres s0 t0). by left. }
  rewrite Hstep. simpl. apply IH.
  apply (online_step_effect (λ _ _ _, True) (move self)) in Hstep
    as (Hc & _); try done.
  - rewrite (sc_tgt_onto _ _ Hc). intros s t Hin. apply (Hres s t). by right.
  - intros. by apply Forall_forall.
Qed.

End OnlineFacts.

(** ** Properties of the passes and of the queries *)

Section PassProperties.

Variable unfold_iri : string → string.
Variable abbr_iri : string → string.
Variable set_difference : list ThingClass → list ThingClass → list ThingClass.

Local Abbreviation static_collect :=
  (static_collect unfold_iri abbr_iri set_difference).
Local Abbreviation online_loop :=
  (online_loop unfold_iri abbr_iri set_difference).
Local Abbreviation online_step :=
  (online_step unfold_iri abbr_iri set_difference).
Local Abbreviation searched_at :=
  (searched_at unfold_iri abbr_iri set_difference).

Lemma Forall_True {A : Type} (xs : list A) : Forall (λ _, True) xs.
Proof. by apply Forall_forall. Qed.

Lemma renew_subs_unmarked self t : ¬ marked_deleted (renew_subs self) t.
Proof. unfold marked_deleted. simpl. by rewrite lookup_empty. Qed.

Lemma static_subs_construct_inv self final :
  static_subs_construct unfold_iri abbr_iri set_difference self = Ok final →
  ∃ marked collected,
    static_prepass unfold_iri self = Ok marked ∧
    static_collect (equiv_pairs marked) marked = Ok collected ∧
    final = set_sub_pairs (uniqify (sub_pairs collected)) collected.
Proof.
  unfold static_subs_construct.
  destruct (static_prepass unfold_iri self) as [marked| |]; simpl; [|done..].
  destruct (static_collect (equiv_pairs marked) marked) as [collected| |] eqn:Hcol;
    simpl; [|intros; discriminate..].
  intros [= <-]. by exists marked, collected.
Qed.

Lemma online_subs_construct_inv self final :
  online_subs_construct unfold_iri abbr_iri set_difference self = Ok final →
  ∃ looped,
    online_loop (equiv_pairs self) (renew_subs self) = Ok looped ∧
    final = set_sub_pairs (uniqify (sub_pairs looped)) looped.
Proof.
  unfold online_subs_construct. simpl.
  destruct (online_loop (equiv_pairs self) (renew_subs self)) as [looped| |] eqn:Hloop;
    simpl; [|intros; discriminate..].
  intros [= <-]. by exists looped.
Qed.

Lemma static_prepass_effect self marked :
  static_prepass unfold_iri self = Ok marked →
  same_config self marked ∧ hop_record marked = ∅ ∧
  ∀ t, marked_deleted marked t ↔
       is_delete_equiv_tgt self = true ∧
       ∃ s ent, (s, t) ∈ equiv_pairs self ∧
                search_first unfold_iri (tgt_onto self) t = Ok ent ∧
                move self ent ≠ [].
Proof.
  unfold static_prepass. simpl.
  destruct (is_delete_equiv_tgt self) eqn:Hflag.
  - intros Hrun. apply static_mark_targets_effect in Hrun
      as (Hc & _ & Hh & _ & Hdel).
    split; [destruct Hc; by split|]. split; [done|].
    intros t. rewrite Hdel. simpl. split.
    + intros [H|H]; [by apply renew_subs_unmarked in H|done].
    + intros [_ H]. by right.
  - intros [= <-]. split; [by split|]. split; [done|].
    intros t. split; [|by intros [? _]].
    intros H. by apply renew_subs_unmarked in H.
Qed.

(** The static pass returns whenever every equivalence target resolves. *)
Lemma static_subs_construct_total self :
  targets_resolve unfold_iri (tgt_onto self) (equiv_pairs self) →
  ∃ final, static_subs_construct unfold_iri abbr_iri set_difference self = Ok final.
Proof.
  intros Hres. unfold static_subs_construct.
  assert (∃ marked, static_prepass unfold_iri self = Ok marked) as [marked Hpre].
  { unfold static_prepass. simpl. destruct (is_delete_equiv_tgt self); [|eauto].
    by apply static_mark_targets_total. }
  rewrite Hpre. simpl.
  destruct (static_prepass_effect _ _ Hpre) as (Hc & _).
  destruct (static_collect_total unfold_iri abbr_iri set_difference
              (equiv_pairs marked) marked) as [collected ->]; [|simpl; eauto].
  by rewrite (sc_tgt_onto _ _ Hc), (sc_equiv_pairs _ _ Hc).
Qed.

(** The online pass returns whenever every equivalence target resolves. *)
Lemma online_subs_construct_total self :
  targets_resolve unfold_iri (tgt_onto self) (equiv_pairs self) →
  ∃ final, online_subs_construct unfold_iri abbr_iri set_difference self = Ok final.
Proof.
  intros Hres. unfold online_subs_construct. simpl.
  destruct (online_loop_total unfold_iri abbr_iri set_difference
              (equiv_pairs self) (renew_subs self)) as [looped ->];
    [done|simpl; eauto].
Qed.


(** C6: the pair list left by either pass has no repeated pair. *)
Theorem no_duplicate_output_pairs self final :
  static_subs_construct unfold_iri abbr_iri set_difference self = Ok final ∨
  online_subs_construct unfold_iri abbr_iri set_difference self = Ok final →
  NoDup (sub_pairs final).
Proof.
  intros [Hrun|Hrun].
  - apply static_subs_construct_inv in Hrun as (marked & collected & _ & _ & ->).
    simpl. apply uniqify_NoDup.
  - apply online_subs_construct_inv in Hrun as (looped & _ & ->).
    simpl. apply uniqify_NoDup.
Qed.

Lemma preserved_loop_spec keys :
  ∀ preserved self,
    let '(out, self') := preserved_loop unfold_iri keys preserved self in
    out = preserved ++
          map unfold_iri (filter (λ n, delete_status self !! n ≠ Some true) keys) ∧
    same_config self self' ∧
    sub_pairs self' = sub_pairs self ∧
    hop_record self' = hop_record self ∧
    construct_status self' = construct_status self ∧
    ∀ k, delete_status self' !! k =
         match delete_status self !! k with
         | Some b => Some b
         | None => if decide (k ∈ keys) then Some false else None
         end.
Proof.
  induction keys as [|k0 keys IH]; intros preserved self; simpl.
  { rewrite app_nil_r. repeat split; try done.
    intros k. by destruct (delete_status self !! k). }
  unfold delete_status_getitem.
  pose proof (defaults_added_getitem (delete_status self) k0) as Hd.
  assert (Hval : (defaultdict_getitem (delete_status self) k0).1 = true ↔
                 delete_status self !! k0 = Some true)
    by apply defaultdict_getitem_value.
  assert (Hother : ∀ k, k ≠ k0 →
            (defaultdict_getitem (delete_status self) k0).2 !! k
            = delete_status self !! k).
  { intros k Hne. unfold defaultdict_getitem.
    destruct (delete_status self !! k0); simpl; [done|].
    by rewrite lookup_insert_ne. }
  assert (Hself : (defaultdict_getitem (delete_status self) k0).2 !! k0
                  = match delete_status self !! k0 with
                    | Some b => Some b
                    | None => Some false
                    end).
  { unfold defaultdict_getitem.
    destruct (delete_status self !! k0) eqn:E; simpl; [done|].
    by rewrite lookup_insert_eq. }
  destruct (defaultdict_getitem (delete_status self) k0) as [b d1]. simpl in *.
  set (self1 := set_delete_status d1 self).
  assert (Hfilter :
    filter (λ n, delete_status self1 !! n ≠ Some true) keys
    = filter (λ n, delete_status self !! n ≠ Some true) keys).
  { apply list_filter_iff. intros n. simpl.
    by rewrite (defaults_added_true _ _ n Hd). }
  assert (Hlookup : ∀ k,
    match d1 !! k with
    | Some b => Some b
    | None => if decide (k ∈ keys) then Some false else None
    end =
    match delete_status self !! k with
    | Some b => Some b
    | None => if decide (k ∈ k0 :: keys) then Some false else None
    end).
  { intros k. destruct (decide (k = k0)) as [->|Hne].
    - rewrite Hself. destruct (delete_status self !! k0); [done|].
      by rewrite decide_True by (by left).
    - rewrite Hother by done. destruct (delete_status self !! k); [done|].
      destruct (decide (k ∈ keys)) as [Hin|Hnin].
      + by rewrite decide_True by (by right).
      + rewrite decide_False; [done|]. rewrite elem_of_cons. naive_solver. }
  destruct b; simpl.
  - specialize (IH preserved self1).
    destruct (preserved_loop unfold_iri keys preserved self1) as [out self'].
    destruct IH as (-> & Hc & Hsp & Hhr & Hcs & Hdl).
    rewrite Hfilter.
    assert (Htrue : delete_status self !! k0 = Some true) by by apply Hval.
    rewrite filter_cons_False by (intros Hne; by apply Hne).
    split; [done|]. split; [destruct Hc; by split|].
    repeat split; try done. intros k. rewrite Hdl. apply Hlookup.
  - specialize (IH (preserved ++ [unfold_iri k0]) self1).
    destruct (preserved_loop unfold_iri keys _ self1) as [out self'].
    destruct IH as (-> & Hc & Hsp & Hhr & Hcs & Hdl).
    rewrite Hfilter.
    assert (Hntrue : delete_status self !! k0 ≠ Some true).
    { intros E. apply Hval in E. done. }
    rewrite filter_cons_True by done. simpl. rewrite <- app_assoc.
    split; [done|]. split; [destruct Hc; by split|].
    repeat split; try done. intros k. rewrite Hdl. apply Hlookup.
Qed.

(** C9: the preserved-targets query writes to the generator: every key of
    the target class index that the delete-status map lacks is added with
    value false.  It changes no flag that is there, so the classes marked
    deleted are the same before and after, and it writes nothing else. *)
Theorem preserved_query_adds_defaults self :
  let '(_, self') := preserved_tgt_iris unfold_iri self in
  (∀ k, delete_status self' !! k =
        match delete_status self !! k with
        | Some b => Some b
        | None =>
            if decide (k ∈ class2idx_keys (tgt_onto self))
            then Some false else None
        end) ∧
  (∀ k, marked_deleted self' k ↔ marked_deleted self k) ∧
  same_config self self' ∧
  sub_pairs self' = sub_pairs self ∧
  hop_record self' = hop_record self ∧
  construct_status self' = construct_status self.
Proof.
  unfold preserved_tgt_iris.
  pose proof (preserved_loop_spec (class2idx_keys (tgt_onto self)) [] self) as H.
  destruct (preserved_loop _ _ _ self) as [out self'].
  destruct H as (_ & Hc & Hsp & Hhr & Hcs & Hdl).
  repeat split; try done; try apply Hc.
  - unfold marked_deleted. rewrite Hdl.
    destruct (delete_status self !! k) as [b|]; [done|]. by case_decide.
  - unfold marked_deleted. rewrite Hdl. by intros ->.
Qed.

(** Every class a pass leaves marked deleted is the target of an
    equivalence pair. *)
Lemma pass_deleted_is_target self final t :
  static_subs_construct unfold_iri abbr_iri set_difference self = Ok final ∨
  online_subs_construct unfold_iri abbr_iri set_difference self = Ok final →
  marked_deleted final t → ∃ s, (s, t) ∈ equiv_pairs self.
Proof.
  intros [Hrun|Hrun] Hm.
  - apply static_subs_construct_inv in Hrun
      as (marked & collected & Hpre & Hcol & ->).
    destruct (static_prepass_effect _ _ Hpre) as (Hc & _ & Hdel).
    apply (static_collect_effect unfold_iri abbr_iri set_difference
             (λ _ _ _, True) (move marked)) in Hcol as (_ & Hd & _);
      try done; [|intros; apply Forall_True].
    apply (defaults_added_true _ _ t Hd), Hdel in Hm
      as (_ & s & ent & Hin & _). eauto.
  - apply online_subs_construct_inv in Hrun as (looped & Hloop & ->).
    apply (online_loop_effect unfold_iri abbr_iri set_difference
             (λ _ _ _, True) (move (renew_subs self))) in Hloop as (_ & _ & Hd);
      try done; [|intros; apply Forall_True].
    destruct (Hd t Hm) as [H|H]; [by apply renew_subs_unmarked in H|done].
Qed.

(** C5, as the code has it: after a pass over equivalence pairs whose
    targets all belong to the target class index, the names whose unfolded IRIs
    [preserved_tgt_iris] returns and the classes marked deleted partition
    the class index: every key of the index is kept or deleted, both kinds
    are keys of the index, and none is both. *)
Theorem preserved_deleted_partition self final :
  static_subs_construct unfold_iri abbr_iri set_difference self = Ok final ∨
  online_subs_construct unfold_iri abbr_iri set_difference self = Ok final →
  (∀ s t, (s, t) ∈ equiv_pairs self → t ∈ class2idx_keys (tgt_onto self)) →
  ∃ kept,
    (preserved_tgt_iris unfold_iri final).1 = map unfold_iri kept ∧
    (∀ n, n ∈ class2idx_keys (tgt_onto final) ↔ n ∈ kept ∨ marked_deleted final n) ∧
    (∀ n, ¬ (n ∈ kept ∧ marked_deleted final n)).
Proof.
  intros Hrun Hidx.
  assert (Honto : tgt_onto final = tgt_onto self).
  { destruct Hrun as [Hrun|Hrun].
    - apply static_subs_construct_inv in Hrun
        as (marked & collected & Hpre & Hcol & ->).
      destruct (static_prepass_effect _ _ Hpre) as (Hc & _).
      apply (static_collect_effect unfold_iri abbr_iri set_difference
               (λ _ _ _, True) (move marked)) in Hcol as (Hc' & _);
        try done; [|intros; apply Forall_True].
      simpl. by rewrite (sc_tgt_onto _ _ Hc'), (sc_tgt_onto _ _ Hc).
    - apply online_subs_construct_inv in Hrun as (looped & Hloop & ->).
      apply (online_loop_effect unfold_iri abbr_iri set_difference
               (λ _ _ _, True) (move (renew_subs self))) in Hloop as (Hc & _);
        try done; [|intros; apply Forall_True].
      simpl. by rewrite (sc_tgt_onto _ _ Hc). }
  exists (filter (λ n, delete_status final !! n ≠ Some true)
            (class2idx_keys (tgt_onto final))).
  unfold preserved_tgt_iris.
  pose proof (preserved_loop_spec (class2idx_keys (tgt_onto final)) [] final) as H.
  destruct (preserved_loop _ _ _ final) as [out self'].
  destruct H as (-> & _). simpl. split; [done|]. split.
  - intros n. rewrite list_elem_of_filter. unfold marked_deleted. split.
    + intros Hn. destruct (decide (delete_status final !! n = Some true));
        [by right|by left].
    + intros [[_ ?]|Hm]; [done|].
      destruct (pass_deleted_is_target _ _ _ Hrun Hm) as [s Hin].
      rewrite Honto. by apply (Hidx s).
  - intros n [Hk Hm]. apply list_elem_of_filter in Hk as [Hk _]. by apply Hk.
Qed.

(** C4: the online pass with deletion on.  (a) A pair is skipped (the step
    returns the generator untouched, no search is run) when its own target
    is marked constructed, and is searched when it is not: the step then
    returns the generator that the search left, with the pairs of the
    search appended and with the target marked deleted at once if the search
    yielded a pair, and with nothing else changed.  (b) At the end
    a class is marked deleted exactly when a pair with that target was
    searched and yielded a pair.  (c) A mark, once set, is there for all
    pairs processed later: it stays to the end, and no later search accepts
    the marked class. *)
Theorem online_deletion_consistency self final :
  is_delete_equiv_tgt self = true →
  online_subs_construct unfold_iri abbr_iri set_difference self = Ok final →
  (∀ pre s t post, equiv_pairs self = pre ++ (s, t) :: post →
     ∃ mid, online_loop pre (renew_subs self) = Ok mid ∧
       (marked_constructed mid t → online_step mid s t = Ok mid) ∧
       (¬ marked_constructed mid t →
          ∃ cur_subs mid' next,
            searched_at mid s t cur_subs mid' ∧
            online_step mid s t = Ok next ∧
            next = set_sub_pairs (sub_pairs mid' ++ cur_subs)
                     match cur_subs with
                     | [] => mid'
                     | _ :: _ =>
                         set_delete_status
                           (<[t := true]> (delete_status mid')) mid'
                     end ∧
            ∀ k, marked_deleted next k ↔
                 marked_deleted mid k ∨ (k = t ∧ cur_subs ≠ []))) ∧
  (∀ t, marked_deleted final t ↔
        ∃ pre s post mid cur_subs mid',
          equiv_pairs self = pre ++ (s, t) :: post ∧
          online_loop pre (renew_subs self) = Ok mid ∧
          searched_at mid s t cur_subs mid' ∧ cur_subs ≠ []) ∧
  (∀ pre post mid t,
     equiv_pairs self = pre ++ post →
     online_loop pre (renew_subs self) = Ok mid →
     marked_deleted mid t →
     marked_deleted final t ∧
     ∀ pre' s' t' post' mid2 cur_subs mid2',
       post = pre' ++ (s', t') :: post' →
       online_loop pre' mid = Ok mid2 →
       searched_at mid2 s' t' cur_subs mid2' →
       (s', t) ∉ cur_subs).
Proof.
  intros Hflag Hrun.
  apply online_subs_construct_inv in Hrun as (looped & Hloop & ->).
  assert (Hflag0 : is_delete_equiv_tgt (renew_subs self) = true) by done.
  assert (Hmid : ∀ pre mid,
            online_loop pre (renew_subs self) = Ok mid →
            is_delete_equiv_tgt mid = true).
  { intros pre mid Hpre.
    by rewrite (online_loop_flag _ _ _ _ _ _ Hpre). }
  split; [|split].
  - intros pre s t post Heq. rewrite Heq in Hloop.
    apply online_loop_prefix_Ok in Hloop as (mid & Hpre & Hpost).
    exists mid. split; [done|].
    pose proof (Hmid _ _ Hpre) as Hfm. split.
    + intros Hm. by apply online_step_skip.
    + intros Hnm. simpl in Hpost.
      destruct (online_step mid s t) as [next| |] eqn:Hstep;
        simpl in Hpost; [|done..].
      destruct (online_step_cases _ _ _ _ _ _ _ Hfm Hstep)
        as [[Hm _]|(cur & mid' & Hs & _ & Hnext)]; [done|].
      destruct (online_step_searched _ _ _ _ _ _ _ _ Hfm Hs)
        as (next' & Hstep' & _ & Hdel).
      assert (next' = next) as -> by congruence.
      exists cur, mid', next. split; [done|]. split; [done|].
      split; [exact Hnext|exact Hdel].
  - intros t. unfold marked_deleted at 1. simpl.
    change (delete_status looped !! t = Some true)
      with (marked_deleted looped t).
    rewrite (online_loop_deleted_iff _ _ _ _ _ _ Hflag0 Hloop t). split.
    + intros [H|H]; [by apply renew_subs_unmarked in H|done].
    + intros H. by right.
  - intros pre post mid t Heq Hpre Hm. rewrite Heq in Hloop.
    apply online_loop_prefix_Ok in Hloop as (mid0 & Hpre0 & Hpost).
    rewrite Hpre in Hpre0. injection Hpre0 as <-.
    pose proof (Hmid _ _ Hpre) as Hfm. split.
    + unfold marked_deleted at 1. simpl.
      change (delete_status looped !! t = Some true)
        with (marked_deleted looped t).
      rewrite (online_loop_deleted_iff _ _ _ _ _ _ Hfm Hpost t). by left.
    + intros pre' s' t' post' mid2 cur mid2' -> Hpre' Hs Hin.
      assert (Hm2 : marked_deleted mid2 t).
      { rewrite (online_loop_deleted_iff _ _ _ _ _ _ Hfm Hpre' t). by left. }
      destruct (searched_at_effect _ _ _ _ _ _ _ _ Hs) as (_ & _ & Hacc & _).
      apply (Hacc t Hin); [|done].
      by rewrite (online_loop_flag _ _ _ _ _ _ Hpre').
Qed.

Lemma reach_from_move mv k :
  ∀ level e n, e ∈ reach_from mv level k → n ∈ mv e →
    n ∈ reach_from mv level (S k).
Proof.
  induction k as [|k IH]; intros level e n He Hn; simpl in *.
  - apply list_elem_of_In, in_flat_map. exists e.
    split; by apply list_elem_of_In.
  - by apply (IH _ e).
Qed.

Lemma first_depth_from_le abbr mv bound :
  ∀ level depth k e,
    (1 ≤ k ≤ bound)%nat → e ∈ reach_from mv level k →
    ∃ d, first_depth_from abbr mv level depth bound (abbr (iri e)) = Some d ∧
         depth ≤ d ≤ depth + Z.of_nat k - 1.
Proof.
  induction bound as [|bound IH]; intros level depth k e Hk He; [lia|].
  simpl. destruct k as [|k]; [lia|]. simpl in He.
  case_decide as Hin.
  - exists depth. split; [done|lia].
  - destruct k as [|k].
    + exfalso. apply Hin. simpl in He. apply list_elem_of_fmap. by exists e.
    + destruct (IH (flat_map mv level) (depth + 1) (S k) e) as (d & Hd & Hle);
        [lia|done|]. exists d. split; [done|lia].
Qed.

(** C2, as the code has it: a hop distance recorded by a pass for
    [(s, n)] is the length of a walk along [move] from the anchor of an
    equivalence pair of source [s] to a class named [n], within
    [1..max_hop]; so it is never smaller than the depth at which the anchor
    first reaches [n], and it can be larger, since a later visit overwrites
    the entry. *)
Theorem hop_distance_is_a_reach_depth self final :
  (∀ xs ys x, x ∈ set_difference xs ys → x ∈ xs) →
  static_subs_construct unfold_iri abbr_iri set_difference self = Ok final ∨
  online_subs_construct unfold_iri abbr_iri set_difference self = Ok final →
  ∀ s n h, hop_record final !! (s, n) = Some h →
    1 ≤ h ≤ max_hop self ∧
    ∃ t ent e,
      (s, t) ∈ equiv_pairs self ∧
      search_first unfold_iri (tgt_onto self) t = Ok ent ∧
      e ∈ reach (move self) ent (Z.to_nat h) ∧ n = abbr_iri (iri e) ∧
      ∃ d, first_depth abbr_iri (move self) ent (Z.to_nat (max_hop self)) n
           = Some d ∧ d ≤ h.
Proof.
  intros Hsub Hrun s n h Hrec.
  set (G := λ ent k e, e ∈ reach (move self) ent k).
  assert (Hw : hop_written
            (pass_written unfold_iri abbr_iri G (tgt_onto self) (max_hop self)
               (equiv_pairs self)) ∅ (hop_record final)).
  { assert (HGa : ∀ ent, G ent 0%nat ent).
    { intros ent. unfold G, reach. simpl. by left. }
    assert (HGm : ∀ ent k e n, G ent k e → n ∈ move self e → G ent (S k) n).
    { intros ent k e m. apply reach_from_move. }
    assert (HGd : ∀ ent k xs ys,
              Forall (G ent k) xs → Forall (G ent k) (set_difference xs ys)).
    { intros ent k xs ys Hxs. rewrite Forall_forall in *.
      intros x Hx. by apply Hxs, (Hsub xs ys). }
    destruct Hrun as [Hrun|Hrun].
    - apply static_subs_construct_inv in Hrun
        as (marked & collected & Hpre & Hcol & ->).
      destruct (static_prepass_effect _ _ Hpre) as (Hc & Hh & _).
      apply (static_collect_effect unfold_iri abbr_iri set_difference
               G (move self)) in Hcol as (_ & _ & _ & Hw);
        [|first [exact HGa|exact HGm|exact HGd|apply Hc]..].
      rewrite Hh in Hw. simpl.
      by rewrite (sc_tgt_onto _ _ Hc), (sc_max_hop _ _ Hc),
                 (sc_equiv_pairs _ _ Hc) in Hw.
    - apply online_subs_construct_inv in Hrun as (looped & Hloop & ->).
      apply (online_loop_effect unfold_iri abbr_iri set_difference
               G (move self)) in Hloop as (_ & Hw & _);
        [|first [exact HGa|exact HGm|exact HGd|done]..].
      exact Hw. }
  destruct (Hw (s, n) h Hrec) as [Hold|Hnew].
  { by rewrite lookup_empty in Hold. }
  destruct Hnew as (s' & t & ent & Hin & Hent & Hr & e & He & [= -> ->]).
  split; [done|]. exists t, ent, e. repeat split; try done.
  destruct (first_depth_from_le abbr_iri (move self) (Z.to_nat (max_hop self))
              [ent] 1 (Z.to_nat h) e) as (d & Hd & Hle); [lia|exact He|].
  exists d. split; [done|lia].
Qed.

End PassProperties.

(** ** The constructor *)

Section ConstructionProperties.

Variable super_thing_classes_of : ThingClass → list ThingClass.
Variable sub_thing_classes_of : ThingClass → list ThingClass.
Variable read_tsv_mappings : string → exn + list (string * string).
Variable random_draw : nat.


(** C8: with a relation other than "<" and ">" the constructor raises the
    configuration error having done nothing: the mappings file is not read
    and no generator exists.  With "<" or ">" the constructor goes on to
    read the file, and whatever it raises then is raised by the reading or
    by the sanity check, not by the check of the relation. *)
Theorem init_checks_relation_first src tgt rel path ratio flag hop :
  (rel ≠ "<" → rel ≠ ">" →
   init super_thing_classes_of sub_thing_classes_of read_tsv_mappings
     random_draw src tgt rel path ratio flag hop
   = ([], Raise (ValueError ("Unknown subsumption relation: " +:+ rel)))) ∧
  (rel = "<" ∨ rel = ">" →
   ∃ events outcome,
     init super_thing_classes_of sub_thing_classes_of read_tsv_mappings
     random_draw src tgt rel path ratio flag hop = (EvReadTsv path :: events, outcome) ∧
     ∀ e, outcome = Raise e →
          read_tsv_mappings path = inl e ∨ e = IndexError ∨ e = AssertionError).
Proof.
  split.
  - intros Hlt Hgt. unfold init, select_move.
    apply String.eqb_neq in Hlt, Hgt. by rewrite Hlt, Hgt.
  - assert (Hafter : ∀ mv,
      ∃ events outcome,
        match read_tsv_mappings path with
        | inl e => ([EvReadTsv path], Raise e)
        | inr equiv_pairs =>
            ([EvReadTsv path; EvRandomChoice],
             check_pair ← random_choice random_draw equiv_pairs;
             if decide (check_pair.1 ∈ class2idx_keys src) then
               if decide (check_pair.2 ∈ class2idx_keys tgt) then
                 Ok {| src_onto := src; tgt_onto := tgt; rel := rel;
                       move := mv; max_hop := hop;
                       equiv_pairs := equiv_pairs; sub_pairs := [];
                       hop_record := ∅; max_subs_ratio := ratio;
                       is_delete_equiv_tgt := flag;
                       delete_status := ∅; construct_status := ∅ |}
               else Raise AssertionError
             else Raise AssertionError)
        end = (EvReadTsv path :: events, outcome) ∧
        ∀ e, outcome = Raise e →
             read_tsv_mappings path = inl e ∨ e = IndexError ∨ e = AssertionError).
    { intros mv. destruct (read_tsv_mappings path) as [e0|pairs].
      - eexists _, _. split; [done|]. intros e [= <-]. by left.
      - eexists _, _. split; [done|]. intros e. unfold random_choice.
        destruct (pairs !! _) as [check_pair|]; simpl.
        + repeat case_decide; intros [= <-]; auto.
        + intros [= <-]. auto. }
    intros [-> | ->]; unfold init, select_move; simpl; apply Hafter.
Qed.

End ConstructionProperties.

(** ** Further properties of the search and of the passes *)

Lemma accounted_same src hi self valid self' :
  hop_record self' = hop_record self →
  construct_status self' = construct_status self →
  sub_pairs self' = sub_pairs self →
  accounted src hi self valid self' valid [].
Proof.
  intros Hh Hc Hs. split; [| | | | |done].
  - by rewrite app_nil_r.
  - intros key h. rewrite Hh. by left.
  - intros key. by rewrite Hh.
  - intros x Hx. by apply elem_of_nil in Hx.
  - intros k. unfold marked_constructed. rewrite Hc, elem_of_nil. naive_solver.
Qed.

Lemma accounted_trans src hi s1 v1 s2 v2 s3 v3 a1 a2 :
  accounted src hi s1 v1 s2 v2 a1 → accounted src hi s2 v2 s3 v3 a2 →
  accounted src hi s1 v1 s3 v3 (a1 ++ a2).
Proof.
  intros [-> Hw1 Hk1 Hr1 Hc1 Hs1] [-> Hw2 Hk2 Hr2 Hc2 Hs2].
  split; [| | | | |congruence].
  - by rewrite app_assoc.
  - intros key h H3. destruct (Hw2 key h H3) as [H2|(Hh & x & Hx & ->)].
    + destruct (Hw1 key h H2) as [?|(Hh & x & Hx & ->)]; [by left|right].
      split; [done|]. exists x. split; [|done]. apply elem_of_app. by left.
    + right. split; [done|]. exists x. split; [|done]. apply elem_of_app. by right.
  - intros key H. by apply Hk2, Hk1.
  - intros x Hx. apply elem_of_app in Hx as [Hx|Hx]; [|by apply Hr2].
    destruct (Hr1 x Hx) as (h & Hh & Hrange).
    destruct (Hk2 (src, x)) as [h' Hh']; [by rewrite Hh|].
    exists h'. split; [done|].
    destruct (Hw2 _ _ Hh') as [H2|[? _]]; [|done]. congruence.
  - intros k. rewrite Hc2, Hc1, elem_of_app. naive_solver.
Qed.

Section Accounting.

Variable abbr_iri : string → string.
Variable set_difference : list ThingClass → list ThingClass → list ThingClass.

Lemma scan_neighbours_accounted src hi hop ns :
  1 ≤ hop ≤ hi →
  ∀ valid num self,
    ∃ added,
      accounted src hi self valid
        (scan_neighbours abbr_iri src hop ns valid num self).2
        (scan_neighbours abbr_iri src hop ns valid num self).1.1 added.
Proof.
  intros Hhop. induction ns as [|n ns IH]; intros valid num self; simpl.
  { exists []. by apply accounted_same. }
  set (name := abbr_iri (iri n)).
  assert (∃ b self1,
    (if is_delete_equiv_tgt self then delete_status_getitem self name
     else (false, self)) = (b, self1) ∧
    accounted src hi self valid self1 valid []) as (b & self1 & -> & Hacc1).
  { destruct (is_delete_equiv_tgt self).
    - unfold delete_status_getitem.
      destruct (defaultdict_getitem (delete_status self) name) as [b d].
      eexists _, _. split; [done|]. by apply accounted_same.
    - exists false, self. split; [done|]. by apply accounted_same. }
  destruct b.
  - destruct (IH valid num self1) as [added Hacc].
    exists ([] ++ added). by eapply accounted_trans.
  - set (self2 := set_construct_status _ _).
    assert (Hacc2 : accounted src hi self1 valid self2 (valid ++ [name]) [name]).
    { split; simpl; [| | | | |done].
      - done.
      - intros key h. destruct (decide ((src, name) = key)) as [<-|Hne].
        + rewrite lookup_insert_eq. intros [= <-]. right. split; [done|].
          exists name. split; [by left|done].
        + rewrite lookup_insert_ne by done. by left.
      - intros key Hs. destruct (decide ((src, name) = key)) as [<-|Hne].
        + by rewrite lookup_insert_eq.
        + by rewrite lookup_insert_ne.
      - intros x Hx. apply list_elem_of_singleton in Hx as ->.
        exists hop. by rewrite lookup_insert_eq.
      - intros k. unfold marked_constructed. simpl.
        rewrite list_elem_of_singleton.
        destruct (decide (name = k)) as [<-|Hne].
        + rewrite lookup_insert_eq. naive_solver.
        + rewrite lookup_insert_ne by done. naive_solver. }
    destruct (num + 1 =? _).
    + exists ([] ++ [name]). by eapply accounted_trans.
    + destruct (IH (valid ++ [name]) (num + 1) self2) as [added Hacc].
      exists (([] ++ [name]) ++ added).
      eapply accounted_trans; [|exact Hacc]. by eapply accounted_trans.
Qed.

Lemma scan_frontier_accounted src hi hop frontier :
  1 ≤ hop ≤ hi →
  ∀ cur explored valid num self,
    ∃ added,
      accounted src hi self valid
        (scan_frontier abbr_iri src hop frontier cur explored valid num self).2
        (scan_frontier abbr_iri src hop frontier cur explored valid num self).1.1.2
        added.
Proof.
  intros Hhop. induction frontier as [|ent frontier IH];
    intros cur explored valid num self; simpl.
  { exists []. by apply accounted_same. }
  destruct (scan_neighbours_accounted src hi hop (move self ent) Hhop
              valid num self) as [a1 Ha1].
  destruct (scan_neighbours _ _ _ _ _ _ self) as [[valid1 num1] self1].
  simpl in Ha1.
  destruct (IH (cur ++ move self ent) (explored ++ [ent]) valid1 num1 self1)
    as [a2 Ha2].
  exists (a1 ++ a2). by eapply accounted_trans.
Qed.

Lemma bfs_while_accounted src fuel :
  ∀ frontier explored hop valid num self valid' self',
    1 ≤ hop →
    bfs_while abbr_iri set_difference fuel src
      frontier explored hop valid num self = Some (valid', self') →
    ∃ added, accounted src (max_hop self) self valid self' valid' added.
Proof.
  induction fuel as [|fuel IH];
    intros frontier explored hop valid num self valid' self' Hhop; simpl.
  - destruct (_ && _); [done|]. intros [= <- <-]. exists [].
    by apply accounted_same.
  - destruct (Z.of_nat (length valid) <? max_subs_ratio self); simpl.
    2:{ intros [= <- <-]. exists []. by apply accounted_same. }
    destruct (hop <=? max_hop self) eqn:Hle.
    2:{ intros [= <- <-]. exists []. by apply accounted_same. }
    apply Z.leb_le in Hle.
    destruct (scan_frontier_accounted src (max_hop self) hop frontier
                (conj Hhop Hle) [] explored valid num self) as [a1 Ha1].
    pose proof (scan_frontier_effect abbr_iri src hop (λ _, True) frontier
                  [] explored valid num self) as Heff.
    destruct (scan_frontier _ _ _ _ _ _ _ _ self)
      as [[[[cur1 explored1] valid1] num1] self1].
    simpl in Ha1. destruct Heff as ([Hc _ _ _ _] & _); [done|].
    intros Hrun. apply IH in Hrun as [a2 Ha2]; [|lia].
    rewrite (sc_max_hop _ _ Hc) in Ha2.
    exists (a1 ++ a2). by eapply accounted_trans.
Qed.

Lemma subs_from_an_equiv_accounted unfold_iri self src tgt subs self' :
  subs_from_an_equiv unfold_iri abbr_iri set_difference self src tgt
    = Ok (subs, self') →
  ∃ valid,
    subs = uniqify (map (λ x, (src, x)) valid) ∧
    accounted src (max_hop self) self [] self' valid valid.
Proof.
  unfold subs_from_an_equiv.
  destruct (search_first unfold_iri (tgt_onto self) tgt) as [ent| |];
    simpl; [|done..].
  destruct (bfs_while _ _ _ _ _ _ _ _ _ _) as [[valid self1]|] eqn:Hrun;
    [|done].
  intros [= <- <-]. exists valid. split; [done|].
  apply bfs_while_accounted in Hrun as [added Hacc]; [|lia].
  pose proof (ac_valid _ _ _ _ _ _ _ Hacc) as Hv. simpl in Hv. by subst added.
Qed.

(** What a search leaves behind, in terms of the pairs it returns. *)
Lemma subs_from_an_equiv_books unfold_iri self src tgt subs self' :
  subs_from_an_equiv unfold_iri abbr_iri set_difference self src tgt
    = Ok (subs, self') →
  (∀ p, p ∈ subs → p.1 = src) ∧
  (∀ key, is_Some (hop_record self' !! key) ↔
          is_Some (hop_record self !! key) ∨ key ∈ subs) ∧
  (∀ key h, hop_record self' !! key = Some h →
            hop_record self !! key = Some h ∨ (key ∈ subs ∧ 1 ≤ h ≤ max_hop self)) ∧
  (∀ key, key ∈ subs →
          ∃ h, hop_record self' !! key = Some h ∧ 1 ≤ h ≤ max_hop self) ∧
  (∀ k, marked_constructed self' k ↔ marked_constructed self k ∨ (src, k) ∈ subs) ∧
  sub_pairs self' = sub_pairs self.
Proof.
  intros Hrun. apply subs_from_an_equiv_accounted in Hrun
    as (valid & -> & [_ Hw Hk Hr Hc Hsp]).
  assert (Hin : ∀ key, key ∈ uniqify (map (λ x, (src, x)) valid) ↔
                       ∃ x, x ∈ valid ∧ key = (src, x)).
  { intros key. rewrite uniqify_elem_of, list_elem_of_fmap. naive_solver. }
  split; [|split; [|split; [|split; [|split; [|done]]]]].
  - intros p Hp. apply Hin in Hp as (x & _ & ->). done.
  - intros key. split.
    + intros [h Hh]. destruct (Hw key h Hh) as [?|[_ Hx]].
      * left. by exists h.
      * right. by apply Hin.
    + intros [H|H]; [by apply Hk|].
      apply Hin in H as (x & Hx & ->). destruct (Hr x Hx) as (h & -> & _). done.
  - intros key h Hh. destruct (Hw key h Hh) as [?|[? Hx]]; [by left|right].
    split; [by apply Hin|done].
  - intros key H. apply Hin in H as (x & Hx & ->). by apply Hr.
  - intros k. rewrite Hc, Hin. naive_solver.
Qed.

End Accounting.

Section PassBooks.

Variable unfold_iri : string → string.
Variable abbr_iri : string → string.
Variable set_difference : list ThingClass → list ThingClass → list ThingClass.

Lemma subs_from_an_equiv_config self src tgt subs self' :
  subs_from_an_equiv unfold_iri abbr_iri set_difference self src tgt
    = Ok (subs, self') →
  same_config self self' ∧
  defaults_added (delete_status self) (delete_status self') ∧
  (is_delete_equiv_tgt self = true →
   ∀ s n, (s, n) ∈ subs → ¬ marked_deleted self n).
Proof.
  intros Hrun.
  apply (subs_from_an_equiv_Ok_inv unfold_iri abbr_iri set_difference
           (λ _ _ _, True) (move self)) in Hrun
    as (ent & valid & _ & -> & [Hc Hd _ _ (added & Hv & Hacc)]); try done.
  2:{ intros. by apply Forall_forall. }
  simpl in Hv. subst added. split; [done|]. split; [done|].
  intros Hflag s n Hin.
  apply uniqify_elem_of, list_elem_of_fmap in Hin as (x & [= -> ->] & Hx).
  rewrite Forall_forall in Hacc. destruct (Hacc x Hx) as [_ Hnd]. by apply Hnd.
Qed.

Lemma books_balanced_frame st st' :
  books_balanced st →
  hop_record st' = hop_record st → sub_pairs st' = sub_pairs st →
  max_hop st' = max_hop st →
  (∀ k, marked_constructed st' k ↔ marked_constructed st k) →
  books_balanced st'.
Proof.
  intros (Hk & Hr & Hc) Hh Hs Hm Hmc. split; [|split].
  - intros key. by rewrite Hh, Hs.
  - intros key h. rewrite Hh, Hm. apply Hr.
  - intros k. by rewrite Hmc, Hs.
Qed.

Lemma books_balanced_renew self : books_balanced (renew_subs self).
Proof.
  split; [|split]; simpl.
  - intros key. rewrite lookup_empty, elem_of_nil. split; [by intros []|done].
  - intros key h. by rewrite lookup_empty.
  - intros k. unfold marked_constructed. simpl. rewrite lookup_empty.
    split; [done|]. intros [s Hs]. by apply elem_of_nil in Hs.
Qed.

Lemma books_balanced_uniqify st :
  books_balanced st →
  books_balanced (set_sub_pairs (uniqify (sub_pairs st)) st).
Proof.
  intros (Hk & Hr & Hc). split; [|split]; simpl.
  - intros key. by rewrite uniqify_elem_of.
  - done.
  - intros k. etrans; [apply (Hc k)|]. by setoid_rewrite uniqify_elem_of.
Qed.

Lemma books_balanced_search st s t subs st' :
  books_balanced st →
  subs_from_an_equiv unfold_iri abbr_iri set_difference st s t = Ok (subs, st') →
  books_balanced (set_sub_pairs (sub_pairs st' ++ subs) st').
Proof.
  intros (Hk & Hr & Hc) Hrun.
  destruct (subs_from_an_equiv_config _ _ _ _ _ Hrun) as (Hcfg & _).
  apply subs_from_an_equiv_books in Hrun as (Hsrc & Hdom & Hw & _ & Hcon & Hsp).
  split; [|split]; simpl.
  - intros key. rewrite Hdom, Hsp, elem_of_app, Hk. done.
  - intros key h Hh. rewrite (sc_max_hop _ _ Hcfg).
    destruct (Hw key h Hh) as [?|[_ ?]]; [by apply (Hr key)|done].
  - intros k. etrans; [apply (Hcon k)|].
    rewrite Hsp, Hc. setoid_rewrite elem_of_app. split.
    + intros [[s' ?]|?]; [exists s'; by left|exists s; by right].
    + intros [s' [?|Hin]]; [left; by exists s'|right].
      by rewrite <- (Hsrc _ Hin).
Qed.

Lemma static_collect_books pairs :
  ∀ st final,
    books_balanced st →
    static_collect unfold_iri abbr_iri set_difference pairs st = Ok final →
    books_balanced final.
Proof.
  induction pairs as [|[s t] pairs IH]; intros st final Hb; simpl.
  { by intros [= <-]. }
  destruct (subs_from_an_equiv _ _ _ st s t) as [[subs st']| |] eqn:Hrun;
    simpl; [|done..].
  apply IH. by eapply books_balanced_search.
Qed.

Lemma online_step_books st s t next :
  books_balanced st →
  online_step unfold_iri abbr_iri set_difference st s t = Ok next →
  books_balanced next.
Proof.
  intros Hb. unfold online_step.
  assert (∃ b st1,
    (if is_delete_equiv_tgt st then construct_status_getitem st t
     else (false, st)) = (b, st1) ∧ books_balanced st1)
    as (b & st1 & -> & Hb1).
  { destruct (is_delete_equiv_tgt st); [|by exists false, st].
    unfold construct_status_getitem.
    pose proof (defaults_added_getitem (construct_status st) t) as Hd.
    destruct (defaultdict_getitem (construct_status st) t) as [b d].
    eexists _, _. split; [done|]. eapply books_balanced_frame; try done.
    intros k. by apply defaults_added_true. }
  destruct b; [by intros [= <-]|].
  destruct (subs_from_an_equiv _ _ _ st1 s t) as [[cur mid']| |] eqn:Hrun;
    simpl; [|done..].
  intros [= <-]. pose proof (books_balanced_search _ _ _ _ _ Hb1 Hrun) as Hb2.
  eapply books_balanced_frame; [exact Hb2|..];
    destruct (is_delete_equiv_tgt mid'); try destruct cur; done.
Qed.

Lemma online_loop_books pairs :
  ∀ st final,
    books_balanced st →
    online_loop unfold_iri abbr_iri set_difference pairs st = Ok final →
    books_balanced final.
Proof.
  induction pairs as [|[s t] pairs IH]; intros st final Hb; simpl.
  { by intros [= <-]. }
  destruct (online_step _ _ _ st s t) as [next| |] eqn:Hstep; simpl; [|done..].
  apply IH. by eapply online_step_books.
Qed.

(** X3: after either pass the hop record has exactly the output pairs as
    keys, each with a depth in [1..max_hop], and the classes marked
    constructed are exactly the targets of the output pairs. *)
Theorem pass_books_balanced self final :
  static_subs_construct unfold_iri abbr_iri set_difference self = Ok final ∨
  online_subs_construct unfold_iri abbr_iri set_difference self = Ok final →
  (∀ key, is_Some (hop_record final !! key) ↔ key ∈ sub_pairs final) ∧
  (∀ key h, hop_record final !! key = Some h → 1 ≤ h ≤ max_hop self) ∧
  (∀ k, marked_constructed final k ↔ ∃ s, (s, k) ∈ sub_pairs final).
Proof.
  intros Hrun.
  assert (books_balanced final ∧ max_hop final = max_hop self) as [Hb Hm].
  { destruct Hrun as [Hrun|Hrun].
    - apply static_subs_construct_inv in Hrun
        as (marked & collected & Hpre & Hcol & ->).
      destruct (static_prepass_effect _ _ _ Hpre) as (Hc & _).
      assert (Hbm : books_balanced marked).
      { unfold static_prepass in Hpre. simpl in Hpre.
        destruct (is_delete_equiv_tgt self); [|injection Hpre as <-;
          apply books_balanced_renew].
        apply static_mark_targets_effect in Hpre as (Hc' & Hs & Hh & Hcs & _).
        eapply books_balanced_frame; [apply (books_balanced_renew self)|..];
          try done; [apply Hc'|]. intros k. unfold marked_constructed.
        by rewrite Hcs. }
      pose proof (static_collect_books _ _ _ Hbm Hcol) as Hb.
      apply (static_collect_effect unfold_iri abbr_iri set_difference
               (λ _ _ _, True) (move marked)) in Hcol as (Hc' & _);
        try done; [|intros; by apply Forall_forall].
      split; [by apply books_balanced_uniqify|]. simpl.
      by rewrite (sc_max_hop _ _ Hc'), (sc_max_hop _ _ Hc).
    - apply online_subs_construct_inv in Hrun as (looped & Hloop & ->).
      pose proof (online_loop_books _ _ _ (books_balanced_renew self) Hloop) as Hb.
      apply (online_loop_effect unfold_iri abbr_iri set_difference
               (λ _ _ _, True) (move (renew_subs self))) in Hloop as (Hc & _);
        try done; [|intros; by apply Forall_forall].
      split; [by apply books_balanced_uniqify|]. simpl.
      by rewrite (sc_max_hop _ _ Hc). }
  destruct Hb as (Hk & Hr & Hc). rewrite Hm in Hr. done.
Qed.

End PassBooks.

Section Policies.

Variable unfold_iri : string → string.
Variable abbr_iri : string → string.
Variable set_difference : list ThingClass → list ThingClass → list ThingClass.

Lemma reach_anchor mv ent : ent ∈ reach mv ent 0.
Proof. unfold reach. simpl. by left. Qed.

Lemma reach_difference mv ent k xs ys :
  (∀ xs ys x, x ∈ set_difference xs ys → x ∈ xs) →
  Forall (λ e, e ∈ reach mv ent k) xs →
  Forall (λ e, e ∈ reach mv ent k) (set_difference xs ys).
Proof.
  intros Hsub Hxs. rewrite Forall_forall in *. intros x Hx.
  by apply Hxs, (Hsub xs ys).
Qed.

(** With deletion off the online loop is the main loop of the static
    algorithm. *)
Lemma static_collect_online_loop pairs :
  ∀ st, is_delete_equiv_tgt st = false →
    static_collect unfold_iri abbr_iri set_difference pairs st
    = online_loop unfold_iri abbr_iri set_difference pairs st.
Proof.
  induction pairs as [|[s t] pairs IH]; intros st Hflag; simpl; [done|].
  unfold online_step. rewrite Hflag.
  destruct (subs_from_an_equiv _ _ _ st s t) as [[subs st']| |] eqn:Hrun;
    simpl; [|done..].
  destruct (subs_from_an_equiv_config _ _ _ _ _ _ _ _ Hrun) as (Hc & _).
  rewrite (sc_is_delete_equiv_tgt _ _ Hc), Hflag. simpl.
  apply IH. simpl. by rewrite (sc_is_delete_equiv_tgt _ _ Hc).
Qed.

Lemma static_online_coincide self :
  is_delete_equiv_tgt self = false →
  static_subs_construct unfold_iri abbr_iri set_difference self
  = online_subs_construct unfold_iri abbr_iri set_difference self.
Proof.
  intros Hflag. unfold static_subs_construct, online_subs_construct,
    static_prepass. simpl. rewrite Hflag. simpl.
  by rewrite static_collect_online_loop.
Qed.

Lemma static_collect_targets_kept pairs :
  ∀ st final,
    (∀ n, marked_deleted st n → is_delete_equiv_tgt st = true) →
    targets_kept st →
    static_collect unfold_iri abbr_iri set_difference pairs st = Ok final →
    targets_kept final.
Proof.
  induction pairs as [|[s t] pairs IH]; intros st final Hon Hkept; simpl.
  { by intros [= <-]. }
  destruct (subs_from_an_equiv _ _ _ st s t) as [[subs st']| |] eqn:Hrun;
    simpl; [|done..].
  destruct (subs_from_an_equiv_config _ _ _ _ _ _ _ _ Hrun) as (Hc & Hd & Hacc).
  pose proof (subs_from_an_equiv_books _ _ _ _ _ _ _ _ Hrun)
    as (_ & _ & _ & _ & _ & Hsp).
  assert (Hmarks : ∀ n, marked_deleted st' n ↔ marked_deleted st n).
  { intros n. by apply defaults_added_true. }
  apply IH.
  - intros n Hn. simpl. rewrite (sc_is_delete_equiv_tgt _ _ Hc).
    apply (Hon n). by apply Hmarks.
  - intros s' n Hin Hn. simpl in Hin. rewrite Hsp in Hin.
    apply Hmarks in Hn.
    apply elem_of_app in Hin as [Hin|Hin]; [by apply (Hkept s' n)|].
    by apply (Hacc (Hon n Hn) s' n).
Qed.

Lemma static_targets_kept self final :
  static_subs_construct unfold_iri abbr_iri set_difference self = Ok final →
  targets_kept final.
Proof.
  intros Hrun. apply static_subs_construct_inv in Hrun
    as (marked & collected & Hpre & Hcol & ->).
  destruct (static_prepass_effect _ _ _ Hpre) as (Hc & _ & Hdel).
  apply static_collect_targets_kept in Hcol.
  - intros s n Hin. simpl in Hin. rewrite uniqify_elem_of in Hin.
    by apply (Hcol s n).
  - intros n Hn. rewrite (sc_is_delete_equiv_tgt _ _ Hc). by apply (Hdel n) in Hn as [? _].
  - intros s n Hin.
    assert (Hs : sub_pairs marked = []).
    { unfold static_prepass in Hpre. simpl in Hpre.
      destruct (is_delete_equiv_tgt self); [|by injection Hpre as <-].
      by apply static_mark_targets_effect in Hpre as (_ & -> & _). }
    rewrite Hs in Hin. by apply elem_of_nil in Hin.
Qed.

(** X4: the static pass never outputs a pair whose target is marked
    deleted. *)
Theorem static_outputs_not_deleted self final :
  static_subs_construct unfold_iri abbr_iri set_difference self = Ok final →
  ∀ s n, (s, n) ∈ sub_pairs final → ¬ marked_deleted final n.
Proof. intros Hrun. exact (static_targets_kept self final Hrun). Qed.

Lemma online_step_config st s t next :
  online_step unfold_iri abbr_iri set_difference st s t = Ok next →
  same_config st next.
Proof.
  intros Hstep.
  apply (online_step_effect unfold_iri abbr_iri set_difference
           (λ _ _ _, True) (move st)) in Hstep as (Hc & _); try done.
  intros. by apply Forall_forall.
Qed.

Lemma online_loop_config pairs st final :
  online_loop unfold_iri abbr_iri set_difference pairs st = Ok final →
  same_config st final.
Proof.
  intros Hloop.
  apply (online_loop_effect unfold_iri abbr_iri set_difference
           (λ _ _ _, True) (move st)) in Hloop as (Hc & _); try done.
  intros. by apply Forall_forall.
Qed.

Lemma static_collect_config pairs st final :
  static_collect unfold_iri abbr_iri set_difference pairs st = Ok final →
  same_config st final.
Proof.
  intros Hcol.
  apply (static_collect_effect unfold_iri abbr_iri set_difference
           (λ _ _ _, True) (move st)) in Hcol as (Hc & _); try done.
  intros. by apply Forall_forall.
Qed.

Lemma online_loop_targets_kept pairs :
  (∀ xs ys x, x ∈ set_difference xs ys → x ∈ xs) →
  ∀ st final,
    is_delete_equiv_tgt st = true →
    no_return unfold_iri abbr_iri (tgt_onto st) (move st) (max_hop st) pairs →
    books_balanced st → targets_kept st →
    online_loop unfold_iri abbr_iri set_difference pairs st = Ok final →
    targets_kept final.
Proof.
  intros Hsub. induction pairs as [|[s t] pairs IH];
    intros st final Hflag Hnr Hb Hkept; simpl.
  { by intros [= <-]. }
  destruct (online_step _ _ _ st s t) as [next| |] eqn:Hstep; simpl; [|done..].
  pose proof (online_step_books _ _ _ _ _ _ _ Hb Hstep) as Hb'.
  pose proof (online_step_config _ _ _ _ Hstep) as Hc.
  assert (Hnr' : no_return unfold_iri abbr_iri (tgt_onto next) (move next)
                   (max_hop next) pairs).
  { rewrite (sc_tgt_onto _ _ Hc), (sc_move _ _ Hc), (sc_max_hop _ _ Hc).
    intros s' t' ent h e Hin. apply (Hnr s' t' ent h e). by right. }
  assert (Hflag' : is_delete_equiv_tgt next = true)
    by by rewrite (sc_is_delete_equiv_tgt _ _ Hc).
  apply IH; try done. clear IH.
  destruct (online_step_cases _ _ _ _ _ _ _ Hflag Hstep)
    as [[_ ->]|(cur & mid' & Hs & _ & _)]; [done|].
  destruct (online_step_searched _ _ _ _ _ _ _ _ Hflag Hs)
    as (next' & Hstep' & Hsp' & Hdel').
  rewrite Hstep in Hstep'. injection Hstep' as <-.
  destruct (searched_at_effect _ _ _ _ _ _ _ _ Hs) as (_ & _ & Hacc & _).
  destruct Hs as [Hnc Hrun].
  destruct (construct_status_getitem_frame st t) as (Hc1 & Hsp1 & _).
  simpl in Hc1, Hsp1.
  pose proof (subs_from_an_equiv_books _ _ _ _ _ _ _ _ Hrun)
    as (_ & _ & _ & _ & _ & Hsp).
  apply (subs_from_an_equiv_Ok_inv unfold_iri abbr_iri set_difference
           (λ ent k e, e ∈ reach (move st) ent k) (move st)) in Hrun
    as (ent & valid & Hent & -> & [_ _ _ _ (added & Hv & Hval)]).
  2:{ intros. apply reach_anchor. }
  2:{ intros ent k e n. apply reach_from_move. }
  2:{ intros. by apply reach_difference. }
  2:{ apply Hc1. }
  simpl in Hv. subst added.
  intros s' n Hin Hn. rewrite Hsp', Hsp, Hsp1 in Hin.
  apply Hdel' in Hn as [Hn|[-> _]].
  - apply elem_of_app in Hin as [Hin|Hin]; [by apply (Hkept s' n)|].
    apply uniqify_elem_of, list_elem_of_fmap in Hin as (x & [= -> ->] & Hx).
    by apply (Hacc x); [apply uniqify_elem_of, list_elem_of_fmap; exists x|..].
  - apply elem_of_app in Hin as [Hin|Hin].
    + apply Hnc. destruct Hb as (_ & _ & Hcon). apply Hcon. by exists s'.
    + apply uniqify_elem_of, list_elem_of_fmap in Hin as (x & [= -> ->] & Hx).
      rewrite Forall_forall in Hval.
      destruct (Hval x Hx) as [(e & (h & Hh & He) & Hname) _].
      rewrite (sc_tgt_onto _ _ Hc1) in Hent. rewrite (sc_max_hop _ _ Hc1) in Hh.
      apply (Hnr s x ent h e); [by left|done..].
Qed.

Lemma online_targets_kept self final :
  (∀ xs ys x, x ∈ set_difference xs ys → x ∈ xs) →
  no_return unfold_iri abbr_iri (tgt_onto self) (move self) (max_hop self)
    (equiv_pairs self) →
  online_subs_construct unfold_iri abbr_iri set_difference self = Ok final →
  targets_kept final.
Proof.
  intros Hsub Hnr Hrun.
  destruct (is_delete_equiv_tgt self) eqn:Hflag.
  - apply online_subs_construct_inv in Hrun as (looped & Hloop & ->).
    assert (Hk0 : targets_kept (renew_subs self)).
    { intros s n Hin. by apply elem_of_nil in Hin. }
    pose proof (online_loop_targets_kept _ Hsub (renew_subs self) looped
                  Hflag Hnr (books_balanced_renew self) Hk0 Hloop) as Hk.
    intros s n Hin. simpl in Hin. rewrite uniqify_elem_of in Hin.
    by apply (Hk s n).
  - rewrite <- static_online_coincide in Hrun by done.
    by apply static_targets_kept in Hrun.
Qed.

(** X5: the online pass never outputs a pair whose target is marked
    deleted, when no equivalence target is met again from its own anchor. *)
Theorem online_outputs_not_deleted self final :
  (∀ xs ys x, x ∈ set_difference xs ys → x ∈ xs) →
  no_return unfold_iri abbr_iri (tgt_onto self) (move self) (max_hop self)
    (equiv_pairs self) →
  online_subs_construct unfold_iri abbr_iri set_difference self = Ok final →
  ∀ s n, (s, n) ∈ sub_pairs final → ¬ marked_deleted final n.
Proof. intros Hsub Hnr Hrun. exact (online_targets_kept self final Hsub Hnr Hrun). Qed.

End Policies.

Section Runs.

Variable unfold_iri : string → string.
Variable abbr_iri : string → string.
Variable set_difference : list ThingClass → list ThingClass → list ThingClass.

(** X6: with deletion off the two policies are the same function. *)
Theorem passes_coincide_without_deletion self :
  is_delete_equiv_tgt self = false →
  static_subs_construct unfold_iri abbr_iri set_difference self
  = online_subs_construct unfold_iri abbr_iri set_difference self.
Proof. apply static_online_coincide. Qed.

Lemma renew_subs_config a b :
  same_config a b → renew_subs b = renew_subs a.
Proof.
  intros []. destruct a, b. unfold renew_subs. simpl in *. by subst.
Qed.

Lemma pass_config self final :
  static_subs_construct unfold_iri abbr_iri set_difference self = Ok final ∨
  online_subs_construct unfold_iri abbr_iri set_difference self = Ok final →
  same_config self final.
Proof.
  intros [Hrun|Hrun].
  - apply static_subs_construct_inv in Hrun
      as (marked & collected & Hpre & Hcol & ->).
    destruct (static_prepass_effect _ _ _ Hpre) as (Hc & _).
    apply static_collect_config in Hcol.
    eapply same_config_trans; [exact Hc|]. destruct Hcol. by split.
  - apply online_subs_construct_inv in Hrun as (looped & Hloop & ->).
    apply online_loop_config in Hloop. destruct Hloop. by split.
Qed.

(** X7: a pass starts from a clean record: run on the generator that an
    earlier pass left, either pass gives what it gives on the generator the
    earlier pass started from. *)
Theorem pass_ignores_earlier_pass self final :
  static_subs_construct unfold_iri abbr_iri set_difference self = Ok final ∨
  online_subs_construct unfold_iri abbr_iri set_difference self = Ok final →
  static_subs_construct unfold_iri abbr_iri set_difference final
  = static_subs_construct unfold_iri abbr_iri set_difference self ∧
  online_subs_construct unfold_iri abbr_iri set_difference final
  = online_subs_construct unfold_iri abbr_iri set_difference self.
Proof.
  intros Hrun. apply pass_config in Hrun.
  pose proof (renew_subs_config _ _ Hrun) as Hrenew.
  unfold static_subs_construct, online_subs_construct, static_prepass.
  by rewrite Hrenew.
Qed.

Lemma subs_from_an_equiv_outcome self src tgt :
  (∃ r, subs_from_an_equiv unfold_iri abbr_iri set_difference self src tgt = Ok r) ∨
  subs_from_an_equiv unfold_iri abbr_iri set_difference self src tgt
    = Raise IndexError.
Proof.
  destruct (owl_search (tgt_onto self) (unfold_iri tgt)) as [|ent rest] eqn:E.
  - right. by apply subs_from_an_equiv_unresolved.
  - left. apply subs_from_an_equiv_total. by rewrite E.
Qed.

Lemma static_mark_targets_outcome pairs :
  ∀ st,
    (∃ final, static_mark_targets unfold_iri pairs st = Ok final) ∨
    static_mark_targets unfold_iri pairs st = Raise IndexError.
Proof.
  induction pairs as [|[s t] pairs IH]; intros st; simpl; [eauto|].
  unfold search_first.
  destruct (owl_search (tgt_onto st) (unfold_iri t)); simpl; [by right|].
  apply IH.
Qed.

Lemma static_collect_outcome pairs :
  ∀ st,
    (∃ final, static_collect unfold_iri abbr_iri set_difference pairs st
              = Ok final) ∨
    static_collect unfold_iri abbr_iri set_difference pairs st
      = Raise IndexError.
Proof.
  induction pairs as [|[s t] pairs IH]; intros st; simpl; [eauto|].
  destruct (subs_from_an_equiv_outcome st s t) as [[[subs st'] ->]| ->];
    simpl; [apply IH|by right].
Qed.

Lemma online_loop_outcome pairs :
  ∀ st,
    (∃ final, online_loop unfold_iri abbr_iri set_difference pairs st
              = Ok final) ∨
    online_loop unfold_iri abbr_iri set_difference pairs st = Raise IndexError.
Proof.
  induction pairs as [|[s t] pairs IH]; intros st; simpl; [eauto|].
  assert ((∃ next, online_step unfold_iri abbr_iri set_difference st s t = Ok next) ∨
          online_step unfold_iri abbr_iri set_difference st s t = Raise IndexError)
    as [[next ->]| ->]; simpl; [|apply IH|by right].
  unfold online_step.
  destruct (if is_delete_equiv_tgt st then construct_status_getitem st t
            else (false, st)) as [[] st1]; [eauto|].
  destruct (subs_from_an_equiv_outcome st1 s t) as [[[subs st'] ->]| ->];
    simpl; [eauto|by right].
Qed.

Lemma static_collect_resolves pairs :
  ∀ st final,
    static_collect unfold_iri abbr_iri set_difference pairs st = Ok final →
    targets_resolve unfold_iri (tgt_onto st) pairs.
Proof.
  induction pairs as [|[s0 t0] pairs IH]; intros st final; simpl.
  { intros _ s t Hin. by apply elem_of_nil in Hin. }
  destruct (subs_from_an_equiv _ _ _ st s0 t0) as [[subs st']| |] eqn:Hrun;
    simpl; [|done..].
  intros Hrest s t Hin.
  apply elem_of_cons in Hin as [[= -> ->]|Hin].
  - apply subs_from_an_equiv_resolves in Hrun as [ent Hent].
    apply search_first_Ok_inv in Hent as [rest ->]. done.
  - apply subs_from_an_equiv_config in Hrun as (Hc & _).
    apply IH in Hrest. simpl in Hrest. rewrite (sc_tgt_onto _ _ Hc) in Hrest.
    by apply (Hrest s t).
Qed.

(** X8: the static pass returns exactly when every equivalence target
    resolves in the target ontology, and raises IndexError otherwise. *)
Theorem static_returns_iff_targets_resolve self :
  ((∃ final, static_subs_construct unfold_iri abbr_iri set_difference self
             = Ok final) ↔
   targets_resolve unfold_iri (tgt_onto self) (equiv_pairs self)) ∧
  (static_subs_construct unfold_iri abbr_iri set_difference self
     = Raise IndexError ↔
   ¬ targets_resolve unfold_iri (tgt_onto self) (equiv_pairs self)).
Proof.
  assert (Hfwd : (∃ final, static_subs_construct unfold_iri abbr_iri
                             set_difference self = Ok final) →
                 targets_resolve unfold_iri (tgt_onto self) (equiv_pairs self)).
  { intros [final Hrun]. apply static_subs_construct_inv in Hrun
      as (marked & collected & Hpre & Hcol & ->).
    destruct (static_prepass_effect _ _ _ Hpre) as (Hc & _).
    apply static_collect_resolves in Hcol.
    by rewrite (sc_tgt_onto _ _ Hc), (sc_equiv_pairs _ _ Hc) in Hcol. }
  assert (Hout : (∃ final, static_subs_construct unfold_iri abbr_iri
                             set_difference self = Ok final) ∨
                 static_subs_construct unfold_iri abbr_iri set_difference self
                   = Raise IndexError).
  { unfold static_subs_construct.
    assert ((∃ marked, static_prepass unfold_iri self = Ok marked) ∨
            static_prepass unfold_iri self = Raise IndexError)
      as [[marked ->]| ->]; simpl; [| |by right].
    { unfold static_prepass. simpl. destruct (is_delete_equiv_tgt self);
        [apply static_mark_targets_outcome|eauto]. }
    destruct (static_collect_outcome (equiv_pairs marked) marked)
      as [[collected ->]| ->]; simpl; [eauto|by right]. }
  split; [split; [done|apply static_subs_construct_total]|].
  split.
  - intros Hraise Hres.
    destruct (static_subs_construct_total unfold_iri abbr_iri set_difference
                self Hres) as [final Hrun].
    congruence.
  - intros Hnres. destruct Hout as [Hok|?]; [|done]. by apply Hfwd in Hok.
Qed.

(** X9: the online pass returns or raises IndexError, and it returns when
    every equivalence target resolves. *)
Theorem online_raises_only_IndexError self :
  ((∃ final, online_subs_construct unfold_iri abbr_iri set_difference self
             = Ok final) ∨
   online_subs_construct unfold_iri abbr_iri set_difference self
     = Raise IndexError) ∧
  (targets_resolve unfold_iri (tgt_onto self) (equiv_pairs self) →
   ∃ final, online_subs_construct unfold_iri abbr_iri set_difference self
            = Ok final).
Proof.
  split; [|apply online_subs_construct_total].
  unfold online_subs_construct. simpl.
  destruct (online_loop_outcome (equiv_pairs self) (renew_subs self))
    as [[looped ->]| ->]; simpl; [eauto|by right].
Qed.

End Runs.

Section SearchEdges.

Variable unfold_iri : string → string.
Variable abbr_iri : string → string.
Variable set_difference : list ThingClass → list ThingClass → list ThingClass.

Lemma scan_frontier_dead src hop frontier :
  ∀ cur explored valid num self,
    (∀ e, e ∈ frontier → move self e = []) →
    scan_frontier abbr_iri src hop frontier cur explored valid num self
    = (cur, explored ++ frontier, valid, num, self).
Proof.
  induction frontier as [|ent frontier IH];
    intros cur explored valid num self Hdead; simpl.
  { by rewrite app_nil_r. }
  rewrite (Hdead ent) by (by left). simpl.
  rewrite IH by (intros e He; apply Hdead; by right).
  by rewrite app_nil_r, <- app_assoc.
Qed.

Lemma bfs_while_dead src fuel :
  (∀ ys, set_difference [] ys = []) →
  ∀ frontier explored hop valid num self r,
    (∀ e, e ∈ frontier → move self e = []) →
    bfs_while abbr_iri set_difference fuel src
      frontier explored hop valid num self = Some r →
    r = (valid, self).
Proof.
  intros Hempty. induction fuel as [|fuel IH];
    intros frontier explored hop valid num self r Hdead; simpl.
  - destruct (_ && _); [done|]. by intros [= <-].
  - destruct (_ && _); [|by intros [= <-]].
    rewrite scan_frontier_dead by done. rewrite Hempty.
    apply IH. intros e He. by apply elem_of_nil in He.
Qed.

(** X2: the search from an anchor without neighbours yields no pair and
    leaves the generator as it was. *)
Theorem search_without_neighbours self src tgt ent :
  (∀ ys, set_difference [] ys = []) →
  search_first unfold_iri (tgt_onto self) tgt = Ok ent →
  move self ent = [] →
  subs_from_an_equiv unfold_iri abbr_iri set_difference self src tgt
    = Ok ([], self).
Proof.
  intros Hempty Hent Hmv. unfold subs_from_an_equiv. rewrite Hent. simpl.
  destruct (bfs_while_total abbr_iri set_difference src
              (Z.to_nat (max_hop self)) [ent] [] 1 [] 0 self) as [r Hr]; [lia|].
  rewrite Hr. apply bfs_while_dead in Hr as ->; [done..|].
  intros e He. apply list_elem_of_singleton in He as ->. done.
Qed.

(** X1: every pair a search returns has the source it was called with, a
    target that is marked constructed and, with deletion on, not marked
    deleted, and a hop entry in [1..max_hop]. *)
Theorem search_output_recorded self src tgt subs self' :
  subs_from_an_equiv unfold_iri abbr_iri set_difference self src tgt
    = Ok (subs, self') →
  ∀ s n, (s, n) ∈ subs →
    s = src ∧ marked_constructed self' n ∧
    (∃ h, hop_record self' !! (s, n) = Some h ∧ 1 ≤ h ≤ max_hop self) ∧
    (is_delete_equiv_tgt self = true →
     ¬ marked_deleted self n ∧ ¬ marked_deleted self' n).
Proof.
  intros Hrun s n Hin.
  destruct (subs_from_an_equiv_config _ _ _ _ _ _ _ _ Hrun) as (Hc & Hd & Hacc).
  apply subs_from_an_equiv_books in Hrun as (Hsrc & _ & _ & Hrec & Hcon & _).
  pose proof (Hsrc _ Hin) as Hs. simpl in Hs. subst s.
  split; [done|]. split; [apply Hcon; by right|]. split; [by apply Hrec|].
  intros Hflag. assert (Hn : ¬ marked_deleted self n) by by apply (Hacc Hflag src).
  split; [done|]. intros Hn'. apply Hn.
  by apply (defaults_added_true _ _ n Hd).
Qed.

Lemma generator_eq a b :
  same_config a b → sub_pairs b = sub_pairs a →
  hop_record b = hop_record a → construct_status b = construct_status a →
  delete_status b = delete_status a → b = a.
Proof. intros []. destruct a, b. simpl in *. intros. by subst. Qed.

End SearchEdges.

Section QueryEdges.

Variable unfold_iri : string → string.

(** X10: the preserved-targets query returns the unfolded names of the keys
    of the class index that are not marked deleted, in the order of the
    index, and asking again changes nothing. *)
Theorem preserved_query_idempotent self :
  let '(out, self') := preserved_tgt_iris unfold_iri self in
  out = map unfold_iri
          (filter (λ n, delete_status self !! n ≠ Some true)
             (class2idx_keys (tgt_onto self))) ∧
  preserved_tgt_iris unfold_iri self' = (out, self').
Proof.
  unfold preserved_tgt_iris.
  pose proof (preserved_loop_spec unfold_iri unfold_iri
                (class2idx_keys (tgt_onto self)) [] self) as H1.
  destruct (preserved_loop _ _ _ self) as [out self'].
  destruct H1 as (-> & Hc & Hsp & Hhr & Hcs & Hdl). split; [done|].
  rewrite (sc_tgt_onto _ _ Hc).
  pose proof (preserved_loop_spec unfold_iri unfold_iri
                (class2idx_keys (tgt_onto self)) [] self') as H2.
  destruct (preserved_loop _ _ _ self') as [out2 self2].
  destruct H2 as (-> & Hc2 & Hsp2 & Hhr2 & Hcs2 & Hdl2). f_equal.
  - simpl. f_equal. apply list_filter_iff. intros n. rewrite Hdl.
    destruct (delete_status self !! n); [done|]. by case_decide.
  - apply generator_eq; try done. apply map_eq. intros k.
    rewrite Hdl2. destruct (delete_status self' !! k) eqn:E; [done|].
    rewrite Hdl in E. destruct (delete_status self !! k); [done|].
    by case_decide.
Qed.

End QueryEdges.

Section ConstructionEdges.

Variable super_thing_classes_of : ThingClass → list ThingClass.
Variable sub_thing_classes_of : ThingClass → list ThingClass.
Variable read_tsv_mappings : string → exn + list (string * string).
Variable random_draw : nat.

Lemma random_choice_nonempty {A : Type} (seq : list A) :
  seq ≠ [] → ∃ x, random_choice random_draw seq = Ok x ∧ x ∈ seq.
Proof.
  intros Hne. unfold random_choice.
  destruct (lookup_lt_is_Some_2 seq (random_draw `mod` length seq)%nat)
    as [x Hx].
  { apply Nat.mod_upper_bound. by destruct seq. }
  rewrite Hx. exists x. split; [done|]. by eapply list_elem_of_lookup_2.
Qed.

Lemma random_choice_Ok {A : Type} (seq : list A) x :
  random_choice random_draw seq = Ok x → x ∈ seq.
Proof.
  unfold random_choice.
  destruct (seq !! _) as [y|] eqn:E; [|done].
  intros [= <-]. by eapply list_elem_of_lookup_2.
Qed.

Lemma select_move_Ok rel mv :
  select_move super_thing_classes_of sub_thing_classes_of rel = Ok mv →
  (rel = "<" ∧ mv = super_thing_classes_of) ∨
  (rel = ">" ∧ mv = sub_thing_classes_of).
Proof.
  unfold select_move.
  destruct (String.eqb rel "<") eqn:Hlt.
  { apply String.eqb_eq in Hlt. intros [= <-]. by left. }
  destruct (String.eqb rel ">") eqn:Hgt; [|done].
  apply String.eqb_eq in Hgt. intros [= <-]. by right.
Qed.

(** X11: a generator that the constructor returns has the mappings of the
    file, of which one has both ends in the class indexes, the move
    function of its relation, the arguments it was given and an empty
    generation record; the file was read once and one sample was drawn. *)
Theorem init_success_shape src tgt sym path ratio flag hop events g :
  init super_thing_classes_of sub_thing_classes_of read_tsv_mappings
    random_draw src tgt sym path ratio flag hop = (events, Ok g) →
  events = [EvReadTsv path; EvRandomChoice] ∧
  read_tsv_mappings path = inr (equiv_pairs g) ∧
  (∃ pair, pair ∈ equiv_pairs g ∧ pair.1 ∈ class2idx_keys src ∧
           pair.2 ∈ class2idx_keys tgt) ∧
  ((sym = "<" ∧ move g = super_thing_classes_of) ∨
   (sym = ">" ∧ move g = sub_thing_classes_of)) ∧
  (rel g = sym ∧ src_onto g = src ∧ tgt_onto g = tgt ∧
   max_hop g = hop ∧ max_subs_ratio g = ratio ∧
   is_delete_equiv_tgt g = flag) ∧
  (sub_pairs g = [] ∧ hop_record g = ∅ ∧ delete_status g = ∅ ∧
   construct_status g = ∅).
Proof.
  unfold init.
  destruct (select_move _ _ sym) as [mv| |] eqn:Hmv; [|done..].
  apply select_move_Ok in Hmv.
  destruct (read_tsv_mappings path) as [e|pairs]; [done|].
  intros [= <- Hg].
  destruct (random_choice random_draw pairs) as [pair| |] eqn:Hpair;
    simpl in Hg; [|done..].
  apply random_choice_Ok in Hpair.
  repeat case_decide; try done. injection Hg as <-. simpl.
  split; [done|]. split; [done|]. split; [by exists pair|done].
Qed.

(** X12: for a recognised relation and a file that is read, the sanity
    check decides the outcome whatever sample is drawn: an empty file gives
    IndexError, a file in which every pair has both ends in the class
    indexes gives a generator, and a file in which no pair has gives
    AssertionError. *)
Theorem init_sanity_check src tgt rel path ratio flag hop pairs :
  rel = "<" ∨ rel = ">" →
  read_tsv_mappings path = inr pairs →
  let outcome :=
    (init super_thing_classes_of sub_thing_classes_of read_tsv_mappings
       random_draw src tgt rel path ratio flag hop).2 in
  (pairs = [] → outcome = Raise IndexError) ∧
  (pairs ≠ [] →
   (∀ p, p ∈ pairs → p.1 ∈ class2idx_keys src ∧ p.2 ∈ class2idx_keys tgt) →
   ∃ g, outcome = Ok g) ∧
  (pairs ≠ [] →
   (∀ p, p ∈ pairs → ¬ (p.1 ∈ class2idx_keys src ∧ p.2 ∈ class2idx_keys tgt)) →
   outcome = Raise AssertionError).
Proof.
  intros Hrel Hread. unfold init.
  assert (∃ mv, select_move super_thing_classes_of sub_thing_classes_of rel
                = Ok mv) as [mv ->].
  { unfold select_move. destruct Hrel as [-> | ->]; simpl; eauto. }
  rewrite Hread. simpl. split; [|split].
  - intros ->. done.
  - intros Hne Hall. destruct (random_choice_nonempty pairs Hne) as (p & -> & Hp).
    simpl. destruct (Hall p Hp) as [H1 H2].
    rewrite decide_True by done. rewrite decide_True by done. eauto.
  - intros Hne Hnone. destruct (random_choice_nonempty pairs Hne) as (p & -> & Hp).
    simpl. specialize (Hnone p Hp). repeat case_decide; try done.
    exfalso. by apply Hnone.
Qed.

End ConstructionEdges.

Section ValidationFacts.

Variable unfold_iri : string → string.
Variable thing_class_ancestors_of : ThingClass → list ThingClass.
Variable thing_class_descendants_of : ThingClass → list ThingClass.
Variable ranked_keys : string → exn + list string.


Lemma validate_loop_true onto related tgt_ent keys :
  validate_loop unfold_iri onto (Some related) tgt_ent keys = Valid true ↔
  ∃ pre k post e rest,
    keys = pre ++ k :: post ∧
    owl_search onto (unfold_iri k) = e :: rest ∧ tgt_ent ∈ related e ∧
    ∀ k', k' ∈ pre →
      ∃ e' rest', owl_search onto (unfold_iri k') = e' :: rest' ∧
                  tgt_ent ∉ related e'.
Proof.
  induction keys as [|k0 keys IH]; simpl.
  { split; [done|]. intros (pre & ? & ? & ? & ? & E & _). by destruct pre. }
  destruct (owl_search onto (unfold_iri k0)) as [|e0 rest0] eqn:E0.
  { split; [done|]. intros (pre & k & post & e & rest & E & Hk & _ & Hpre).
    destruct pre as [|p pre]; simplify_eq/=; [congruence|].
    destruct (Hpre p) as (? & ? & ? & _); [by left|]. congruence. }
  case_decide as Hin.
  - split; [|done]. intros _. exists [], k0, keys, e0, rest0.
    split; [done|]. split; [done|]. split; [done|].
    intros k' Hk'. by apply elem_of_nil in Hk'.
  - rewrite IH. split.
    + intros (pre & k & post & e & rest & -> & Hk & He & Hpre).
      exists (k0 :: pre), k, post, e, rest. split; [done|].
      split; [done|]. split; [done|]. intros k' Hk'.
      apply elem_of_cons in Hk' as [->|Hk']; [|by apply Hpre].
      by exists e0, rest0.
    + intros (pre & k & post & e & rest & E & Hk & He & Hpre).
      destruct pre as [|p pre]; simplify_eq/=.
      * rewrite E0 in Hk. by simplify_eq.
      * exists pre, k, post, e, rest. split; [done|]. split; [done|].
        split; [done|]. intros k' Hk'. apply Hpre. by right.
Qed.

Lemma validate_loop_false onto related tgt_ent keys :
  validate_loop unfold_iri onto (Some related) tgt_ent keys = Valid false ↔
  ∀ k, k ∈ keys →
    ∃ e rest, owl_search onto (unfold_iri k) = e :: rest ∧ tgt_ent ∉ related e.
Proof.
  induction keys as [|k0 keys IH]; simpl.
  { split; [|done]. intros _ k Hk. by apply elem_of_nil in Hk. }
  destruct (owl_search onto (unfold_iri k0)) as [|e0 rest0] eqn:E0.
  { split; [done|]. intros Hall. destruct (Hall k0) as (? & ? & ? & _);
      [by left|]. congruence. }
  case_decide as Hin.
  - split; [done|]. intros Hall. destruct (Hall k0) as (e & rest & E & Hn);
      [by left|]. rewrite E0 in E. by simplify_eq.
  - rewrite IH. split.
    + intros Hall k Hk. apply elem_of_cons in Hk as [->|Hk]; [|by apply Hall].
      by exists e0, rest0.
    + intros Hall k Hk. apply Hall. by right.
Qed.

Lemma validate_loop_assigned onto related tgt_ent keys :
  validate_loop unfold_iri onto (Some related) tgt_ent keys ≠ UnboundLocalError.
Proof.
  induction keys as [|k0 keys IH]; simpl; [done|].
  destruct (owl_search onto (unfold_iri k0)); [done|]. by case_decide.
Qed.

(** X13: what [validate_subs] answers for a target that resolves, a
    recognised relation and a source with ranked targets: true exactly when
    some ranked target resolves to a class that has the pair's target among
    its relatives and all ranked targets before it resolve without having
    it; false exactly when every ranked target resolves without having
    it. *)
Theorem validate_subs_answer self src tgt tgt_ent others related keys :
  owl_search (tgt_onto self) (unfold_iri tgt) = tgt_ent :: others →
  select_related thing_class_ancestors_of thing_class_descendants_of (rel self)
    = Some related →
  ranked_keys src = inr keys →
  (validate_subs unfold_iri thing_class_ancestors_of
     thing_class_descendants_of ranked_keys self (src, tgt) = Valid true ↔
   ∃ pre k post e rest,
     keys = pre ++ k :: post ∧
     owl_search (tgt_onto self) (unfold_iri k) = e :: rest ∧
     tgt_ent ∈ related e ∧
     ∀ k', k' ∈ pre →
       ∃ e' rest', owl_search (tgt_onto self) (unfold_iri k') = e' :: rest' ∧
                   tgt_ent ∉ related e') ∧
  (validate_subs unfold_iri thing_class_ancestors_of
     thing_class_descendants_of ranked_keys self (src, tgt) = Valid false ↔
   ∀ k, k ∈ keys →
     ∃ e rest, owl_search (tgt_onto self) (unfold_iri k) = e :: rest ∧
               tgt_ent ∉ related e).
Proof.
  intros Htgt Hrel Hkeys. unfold validate_subs.
  rewrite Htgt, Hrel, Hkeys. split.
  - apply validate_loop_true.
  - apply validate_loop_false.
Qed.

(** X14: on a generator that the constructor returned, [validate_subs]
    never reads [subs_related] unassigned. *)
Theorem validate_subs_assigned_after_init super_thing_classes_of
    sub_thing_classes_of read_tsv_mappings random_draw
    src tgt sym path ratio flag hop events g pair :
  init super_thing_classes_of sub_thing_classes_of read_tsv_mappings
    random_draw src tgt sym path ratio flag hop = (events, Ok g) →
  validate_subs unfold_iri thing_class_ancestors_of
     thing_class_descendants_of ranked_keys g pair ≠ UnboundLocalError.
Proof.
  intros Hinit.
  assert (Hrel : rel g = "<" ∨ rel g = ">").
  { unfold init in Hinit.
    destruct (select_move _ _ sym) as [mv| |] eqn:Hmv; [|done..].
    apply select_move_Ok in Hmv.
    destruct (read_tsv_mappings path) as [e|pairs]; [done|].
    injection Hinit as _ Hg.
    destruct (random_choice random_draw pairs) as [p| |]; simpl in Hg; [|done..].
    repeat case_decide; try done. injection Hg as <-. simpl. naive_solver. }
  unfold validate_subs. destruct pair as [s t].
  destruct (owl_search (tgt_onto g) (unfold_iri t)); [done|].
  destruct (ranked_keys s); [done|].
  assert (∃ related, select_related thing_class_ancestors_of
                       thing_class_descendants_of (rel g) = Some related)
    as [related ->].
  { unfold select_related. destruct Hrel as [-> | ->]; simpl; eauto. }
  apply validate_loop_assigned.
Qed.

Lemma validate_loop_finds onto related tgt_ent keys :
  (∀ k, k ∈ keys → owl_search onto (unfold_iri k) ≠ []) →
  (∃ k e rest, k ∈ keys ∧ owl_search onto (unfold_iri k) = e :: rest ∧
               tgt_ent ∈ related e) →
  validate_loop unfold_iri onto (Some related) tgt_ent keys = Valid true.
Proof.
  induction keys as [|k0 keys IH]; intros Hres (k & e & rest & Hk & He & Hin).
  { by apply elem_of_nil in Hk. }
  simpl. destruct (owl_search onto (unfold_iri k0)) as [|e0 rest0] eqn:E0.
  { exfalso. apply (Hres k0); [by left|done]. }
  case_decide as Hin0; [done|]. apply IH.
  - intros k' Hk'. apply Hres. by right.
  - apply elem_of_cons in Hk as [->|Hk]; [|by exists k, e, rest].
    rewrite E0 in He. by simplify_eq.
Qed.

End ValidationFacts.

Section ValidationSoundness.

Variable unfold_iri : string → string.
Variable abbr_iri : string → string.
Variable set_difference : list ThingClass → list ThingClass → list ThingClass.
Variable thing_class_ancestors_of : ThingClass → list ThingClass.
Variable thing_class_descendants_of : ThingClass → list ThingClass.
Variable ranked_keys : string → exn + list string.

Lemma reach_from_S_all (P : ThingClass → Prop) mv k :
  ∀ level,
    (∀ e n, e ∈ level → n ∈ mv e → P n) →
    (∀ e n, P e → n ∈ mv e → P n) →
    ∀ n, n ∈ reach_from mv level (S k) → P n.
Proof.
  induction k as [|k IH]; intros level Hstart Hstep n Hn; simpl in Hn.
  - apply list_elem_of_In, in_flat_map in Hn as (e & He & Hn).
    apply (Hstart e); by apply list_elem_of_In.
  - apply (IH (flat_map mv level)); [|done|done].
    intros e m He Hm. apply (Hstep e); [|done].
    apply list_elem_of_In, in_flat_map in He as (e0 & He0 & He).
    apply (Hstart e0); by apply list_elem_of_In.
Qed.

(** X15: every pair that a search generates is validated, when the relatives
    of a class contain its neighbours and are closed under the move, the
    names of neighbours resolve back to them, and the ranked targets of the
    source resolve and include the anchor. *)
Theorem generated_pairs_validate self src tgt subs self' related keys :
  (∀ xs ys x, x ∈ set_difference xs ys → x ∈ xs) →
  select_related thing_class_ancestors_of thing_class_descendants_of (rel self)
    = Some related →
  (∀ e n, n ∈ move self e → n ∈ related e) →
  (∀ e m n, m ∈ related e → n ∈ move self m → n ∈ related e) →
  (∀ e n, n ∈ move self e →
     ∃ rest, owl_search (tgt_onto self) (unfold_iri (abbr_iri (iri n)))
             = n :: rest) →
  ranked_keys src = inr keys → tgt ∈ keys →
  (∀ k, k ∈ keys → owl_search (tgt_onto self) (unfold_iri k) ≠ []) →
  subs_from_an_equiv unfold_iri abbr_iri set_difference self src tgt
    = Ok (subs, self') →
  ∀ p, p ∈ subs → validate_subs unfold_iri thing_class_ancestors_of
     thing_class_descendants_of ranked_keys self' p = Valid true.
Proof.
  intros Hsub Hrel Hnear Hclosed Hback Hkeys Htgt Hres Hrun p Hp.
  apply (subs_from_an_equiv_Ok_inv unfold_iri abbr_iri set_difference
           (λ ent k e, e ∈ reach (move self) ent k) (move self)) in Hrun
    as (ent & valid & Hent & -> & [Hc _ _ _ (added & Hv & Hval)]).
  2:{ intros. unfold reach. simpl. by left. }
  2:{ intros e k e' n. apply reach_from_move. }
  2:{ intros e k xs ys Hxs. rewrite Forall_forall in *. intros x Hx.
      by apply Hxs, (Hsub xs ys). }
  2:{ done. }
  simpl in Hv. subst added.
  apply uniqify_elem_of, list_elem_of_fmap in Hp as (x & -> & Hx).
  rewrite Forall_forall in Hval.
  destruct (Hval x Hx) as [(n & (h & Hh & Hn) & ->) _].
  replace (Z.to_nat h) with (S (Z.to_nat (h - 1))) in Hn by lia.
  unfold reach in Hn.
  assert (Hrelative : n ∈ related ent).
  { apply (reach_from_S_all (λ m, m ∈ related ent) (move self)
             (Z.to_nat (h - 1)) [ent]); [| |exact Hn].
    - intros e m He Hm. apply list_elem_of_singleton in He as ->. by apply Hnear.
    - intros e m He Hm. by apply (Hclosed ent e). }
  assert (Hneighbour : ∃ e, n ∈ move self e).
  { apply (reach_from_S_all (λ m, ∃ e, m ∈ move self e) (move self)
             (Z.to_nat (h - 1)) [ent]); [| |exact Hn].
    - intros e m _ Hm. by exists e.
    - intros e m _ Hm. by exists e. }
  destruct Hneighbour as [e0 He0]. destruct (Hback e0 n He0) as [rest Hn'].
  apply search_first_Ok_inv in Hent as [rest' Hent].
  unfold validate_subs.
  rewrite (sc_tgt_onto _ _ Hc), (sc_rel _ _ Hc), Hn', Hrel, Hkeys.
  apply validate_loop_finds; [done|]. by exists tgt, ent, rest'.
Qed.

End ValidationSoundness.

(** ** Token sizes *)

Lemma count_from_counters ids :
  ∀ c N,
    0 ≤ num_128 c ≤ num_256 c → num_256 c ≤ num_512 c ≤ N →
    0 ≤ l_max c → (num_512 c = N ↔ l_max c ≤ 512) →
    l_sum c ≤ N * l_max c →
    let r := count_from c ids in
    let N' := N + Z.of_nat (length ids) in
    (0 ≤ num_128 r ≤ num_256 r ∧ num_256 r ≤ num_512 r ≤ N') ∧
    (num_512 r = N' ↔ l_max r ≤ 512) ∧
    l_sum r ≤ N' * l_max r ∧
    l_max c ≤ l_max r ∧
    (∀ item, item ∈ ids → Z.of_nat (length item) ≤ l_max r).
Proof.
  induction ids as [|item ids IH]; intros c N H1 H2 H3 H4 H5; simpl.
  { rewrite Z.add_0_r. repeat split; try lia; try tauto.
    intros item Hin. by apply elem_of_nil in Hin. }
  set (l := Z.of_nat (length item)).
  assert (Hl : 0 ≤ l) by lia.
  destruct (IH (count_item c item) (N + 1)) as (Ha & Hb & Hc & Hd & He).
  - unfold count_item. simpl. fold l.
    destruct (l <=? 128) eqn:E1, (l <=? 256) eqn:E2; lia.
  - unfold count_item. simpl. fold l.
    destruct (l <=? 256) eqn:E2, (l <=? 512) eqn:E3; lia.
  - unfold count_item. simpl. fold l. destruct (l >? l_max c); lia.
  - unfold count_item. simpl. fold l.
    destruct (l <=? 512) eqn:E3, (l >? l_max c) eqn:E4; lia.
  - unfold count_item. simpl. fold l.
    destruct (l >? l_max c) eqn:E4; nia.
  - replace (N + Z.of_nat (S (length ids)))
      with (N + 1 + Z.of_nat (length ids)) by lia.
    split; [done|]. split; [done|]. split; [done|].
    assert (Hstep : l_max c ≤ l_max (count_item c item) ∧
                    l ≤ l_max (count_item c item)).
    { unfold count_item. simpl. fold l. destruct (l >? l_max c) eqn:E4; lia. }
    split; [lia|]. intros item' Hin.
    apply elem_of_cons in Hin as [->|Hin]; [fold l; lia|by apply He].
Qed.

Lemma count_from_sum ids :
  ∀ c, l_sum (count_from c ids)
       = l_sum c + foldr (λ item acc, Z.of_nat (length item) + acc) 0 ids.
Proof.
  induction ids as [|item ids IH]; intros c; simpl; [lia|].
  rewrite IH. unfold count_item. simpl. lia.
Qed.

Lemma count_from_max_attained ids :
  ∀ c, l_max (count_from c ids) = l_max c ∨
       ∃ item, item ∈ ids ∧ l_max (count_from c ids) = Z.of_nat (length item).
Proof.
  induction ids as [|item ids IH]; intros c; simpl; [by left|].
  destruct (IH (count_item c item)) as [->|(item' & Hin & ->)].
  - unfold count_item. simpl. destruct (_ >? _); [right|by left].
    exists item. split; [by left|done].
  - right. exists item'. split; [by right|done].
Qed.

(** X16: the counters of token sizes are ordered: at most as many items
    fit in 128 tokens as in 256, at most as many in 256 as in 512, and at
    most all of them; all items fit in 512 exactly when the longest does. *)
Theorem token_size_counts_ordered (input_ids : list (list Z)) :
  let r := count_token_sizes input_ids in
  0 ≤ num_128 r ≤ num_256 r ∧
  num_256 r ≤ num_512 r ≤ Z.of_nat (length input_ids) ∧
  (num_512 r = Z.of_nat (length input_ids) ↔ l_max r ≤ 512).
Proof.
  destruct (count_from_counters input_ids
              {| l_sum := 0; num_128 := 0; num_256 := 0; num_512 := 0;
                 l_max := 0 |} 0) as ((Ha & Hb) & Hc & _); simpl; try lia.
  done.
Qed.

(** X17: [l_sum] is the total number of tokens and [l_max] the size of a
    longest item (0 without items): no item is longer, some item is that
    long, and the total is at most the number of items times [l_max]. *)
Theorem token_size_sum_and_maximum (input_ids : list (list Z)) :
  let r := count_token_sizes input_ids in
  l_sum r = foldr (λ item acc, Z.of_nat (length item) + acc) 0 input_ids ∧
  (∀ item, item ∈ input_ids → Z.of_nat (length item) ≤ l_max r) ∧
  ((input_ids = [] ∧ l_max r = 0) ∨
   ∃ item, item ∈ input_ids ∧ l_max r = Z.of_nat (length item)) ∧
  l_sum r ≤ Z.of_nat (length input_ids) * l_max r.
Proof.
  set (c0 := {| l_sum := 0; num_128 := 0; num_256 := 0; num_512 := 0;
                l_max := 0 |}).
  destruct (count_from_counters input_ids c0 0)
    as (_ & _ & Hsum & _ & Hmax); simpl; try lia.
  split; [apply (count_from_sum input_ids c0)|]. split; [done|].
  split; [|done].
  destruct (count_from_max_attained input_ids c0) as [H0|?]; [|by right].
  destruct input_ids as [|item ids]; [by left|right].
  exists item. split; [by left|].
  assert (Hle : Z.of_nat (length item) ≤ l_max (count_token_sizes (item :: ids)))
    by (apply Hmax; by left).
  unfold count_token_sizes in *. fold c0 in Hle |- *. rewrite H0 in Hle |- *.
  simpl in *. lia.
Qed.

(** ** The model at work on the fixtures *)

Lemma fixture_set_difference_NoDup xs ys : NoDup (Fixture.set_difference xs ys).
Proof. apply uniqify_NoDup. Qed.

Lemma fixture_set_difference_elem_of xs ys x :
  x ∈ Fixture.set_difference xs ys ↔ x ∈ xs ∧ x ∉ ys.
Proof.
  unfold Fixture.set_difference. by rewrite uniqify_elem_of, list_elem_of_filter, (comm and).
Qed.

Lemma fixture_set_difference_subset xs ys x :
  x ∈ Fixture.set_difference xs ys → x ∈ xs.
Proof. rewrite fixture_set_difference_elem_of. by intros [? _]. Qed.

Lemma bfs_while_step abbr_iri set_difference fuel src frontier explored hop
    valid num self :
  (Z.of_nat (length valid) <? max_subs_ratio self) && (hop <=? max_hop self)
    = true →
  bfs_while abbr_iri set_difference (S fuel) src frontier explored hop valid
    num self =
  let r := scan_frontier abbr_iri src hop frontier [] explored valid num self in
  bfs_while abbr_iri set_difference fuel src
    (set_difference r.1.1.1.1 r.1.1.1.2) r.1.1.1.2 (hop + 1) r.1.1.2 r.1.2 r.2.
Proof.
  intros Hcond. simpl. rewrite Hcond.
  by destruct (scan_frontier _ _ _ _ _ _ _ _ _) as [[[[? ?] ?] ?] ?].
Qed.

Lemma two_element_orders {A : Type} (a b : A) (l : list A) :
  a ≠ b → NoDup l → (∀ x, x ∈ l ↔ x = a ∨ x = b) →
  l = [a; b] ∨ l = [b; a].
Proof.
  intros Hne Hnd Hel. apply Permutation_length_2_inv.
  apply NoDup_Permutation; [|done|].
  - repeat constructor; rewrite ?elem_of_cons, ?elem_of_nil; naive_solver.
  - intros x. rewrite Hel, !elem_of_cons, elem_of_nil. naive_solver.
Qed.

(** C1 fails on the tree fixture: B has super-classes C and D, C has E and
    F, D has G and H, the cap is 3 and the depth 2.  Whatever the order in
    which the frontier set {C, D} is iterated, the search accepts five
    neighbours: the count reaches 3 in the list of the first frontier class,
    the [break] leaves that list only, and the second frontier class is
    scanned in full. *)
Theorem cap_exceeded_on_tree
    (set_difference : list ThingClass → list ThingClass → list ThingClass) :
  (∀ xs ys, NoDup (set_difference xs ys)) →
  (∀ xs ys x, x ∈ set_difference xs ys ↔ x ∈ xs ∧ x ∉ ys) →
  ∃ subs self',
    subs_from_an_equiv Fixture.unfold_iri Fixture.abbr_iri set_difference
      Fixture.tree_generator "A" "B" = Ok (subs, self') ∧
    length subs = 5%nat ∧ max_subs_ratio Fixture.tree_generator = 3.
Proof.
  intros Hnd Hel.
  assert (Hfrontier :
    set_difference [Fixture.cls "C"; Fixture.cls "D"] [Fixture.cls "B"]
      = [Fixture.cls "C"; Fixture.cls "D"] ∨
    set_difference [Fixture.cls "C"; Fixture.cls "D"] [Fixture.cls "B"]
      = [Fixture.cls "D"; Fixture.cls "C"]).
  { apply two_element_orders; [done|apply Hnd|].
    intros x. rewrite Hel, !elem_of_cons, !elem_of_nil.
    split; [naive_solver|]. intros [-> | ->]; split; try naive_solver.
    all: intros [?|[]]; done. }
  assert (Hlen :
    match subs_from_an_equiv Fixture.unfold_iri Fixture.abbr_iri set_difference
            Fixture.tree_generator "A" "B" with
    | Ok (subs, _) => length subs
    | _ => 0%nat
    end = 5%nat).
  { unfold subs_from_an_equiv.
    replace (search_first Fixture.unfold_iri (tgt_onto Fixture.tree_generator) "B")
      with (Ok (Fixture.cls "B")) by reflexivity.
    change (Z.to_nat (max_hop Fixture.tree_generator)) with 2%nat.
    cbn [mbind result_bind].
    rewrite bfs_while_step by reflexivity.
    set (r := scan_frontier Fixture.abbr_iri "A" 1 [Fixture.cls "B"] [] [] [] 0
                Fixture.tree_generator).
    cbv zeta.
    replace (r.1.1.1.1) with [Fixture.cls "C"; Fixture.cls "D"]
      by (vm_compute; reflexivity).
    replace (r.1.1.1.2) with [Fixture.cls "B"] by (vm_compute; reflexivity).
    destruct Hfrontier as [-> | ->]; vm_compute; reflexivity. }
  destruct (subs_from_an_equiv _ _ _ _ _ _) as [[subs self']| |]; [|done..].
  by exists subs, self'.
Qed.

Lemma cap_exceeded_on_tree_witness :
  ∃ subs self',
    Fixture.search Fixture.tree_generator "A" "B" = Ok (subs, self') ∧
    length subs = 5%nat ∧ max_subs_ratio Fixture.tree_generator = 3.
Proof.
  apply (cap_exceeded_on_tree Fixture.set_difference).
  - apply fixture_set_difference_NoDup.
  - apply fixture_set_difference_elem_of.
Defined.

(** C2 fails on the diamond fixture: B has super-classes C and D, and D
    has super-class C.  C is first reached at depth 1, is met again at depth
    2 through D, and the record ends with 2 for (A, C). *)
Lemma hop_record_is_not_first_depth :
  ¬ records_first_depth Fixture.unfold_iri Fixture.abbr_iri
      Fixture.set_difference Fixture.diamond_generator.
Proof.
  intros Hclaim.
  assert (Hrun : static_subs_construct Fixture.unfold_iri Fixture.abbr_iri
                   Fixture.set_difference Fixture.diamond_generator
                 = Ok (Fixture.outcome (Fixture.static_run Fixture.diamond_generator)))
    by (vm_compute; reflexivity).
  specialize (Hclaim _ (or_introl Hrun) "A" "B" (Fixture.cls "B") "C" 2).
  assert (Hd : first_depth Fixture.abbr_iri (move Fixture.diamond_generator)
                 (Fixture.cls "B") (Z.to_nat (max_hop Fixture.diamond_generator)) "C"
               = Some 1) by reflexivity.
  rewrite Hd in Hclaim. discriminate Hclaim.
  - by left.
  - reflexivity.
  - vm_compute. reflexivity.
Qed.

Lemma hop_distance_is_a_reach_depth_witness :
  hop_record (Fixture.outcome (Fixture.static_run Fixture.diamond_generator))
    !! ("A", "C") = Some 2 ∧
  1 ≤ 2 ≤ max_hop Fixture.diamond_generator ∧
  ∃ t ent e,
    (("A", t) : string * string) ∈ equiv_pairs Fixture.diamond_generator ∧
    search_first Fixture.unfold_iri (tgt_onto Fixture.diamond_generator) t = Ok ent ∧
    e ∈ reach (move Fixture.diamond_generator) ent (Z.to_nat 2) ∧
    "C" = Fixture.abbr_iri (iri e) ∧
    ∃ d, first_depth Fixture.abbr_iri (move Fixture.diamond_generator) ent
           (Z.to_nat (max_hop Fixture.diamond_generator)) "C" = Some d ∧ d ≤ 2.
Proof.
  split; [vm_compute; reflexivity|].
  apply (hop_distance_is_a_reach_depth Fixture.unfold_iri Fixture.abbr_iri
           Fixture.set_difference Fixture.diamond_generator
           (Fixture.outcome (Fixture.static_run Fixture.diamond_generator))).
  - apply fixture_set_difference_subset.
  - left. vm_compute. reflexivity.
  - vm_compute. reflexivity.
Defined.

Lemma hop_distance_within_bounds_witness :
  Fixture.search Fixture.diamond_generator "A" "B"
    = Ok (Fixture.search_outcome (Fixture.search Fixture.diamond_generator "A" "B")) ∧
  ∀ key h,
    hop_record
      (Fixture.search_outcome (Fixture.search Fixture.diamond_generator "A" "B")).2
      !! key = Some h →
    hop_record Fixture.diamond_generator !! key = Some h ∨
    1 ≤ h ≤ max_hop Fixture.diamond_generator.
Proof.
  split; [vm_compute; reflexivity|].
  apply (hop_distance_within_bounds Fixture.unfold_iri Fixture.abbr_iri
           Fixture.set_difference Fixture.diamond_generator "A" "B"
           (Fixture.search_outcome
              (Fixture.search Fixture.diamond_generator "A" "B")).1).
  vm_compute. reflexivity.
Defined.

Lemma search_with_exhausted_bounds_witness :
  (max_hop Fixture.shallow_generator < 1 ∨
   max_subs_ratio Fixture.shallow_generator ≤ 0) ∧
  Fixture.search Fixture.shallow_generator "A" "B"
    = Ok ([], Fixture.shallow_generator).
Proof.
  split; [left; reflexivity|].
  apply (search_with_exhausted_bounds Fixture.unfold_iri Fixture.abbr_iri
           Fixture.set_difference Fixture.shallow_generator "A" "B"
           (Fixture.cls "B")).
  - left. reflexivity.
  - reflexivity.
Defined.


Lemma online_deletion_consistency_witness :
  is_delete_equiv_tgt Fixture.diamond_generator = true ∧
  Fixture.online_run Fixture.diamond_generator
    = Ok (Fixture.outcome (Fixture.online_run Fixture.diamond_generator)) ∧
  ∀ t, marked_deleted
         (Fixture.outcome (Fixture.online_run Fixture.diamond_generator)) t ↔
       ∃ pre s post mid cur_subs mid',
         equiv_pairs Fixture.diamond_generator = pre ++ (s, t) :: post ∧
         online_loop Fixture.unfold_iri Fixture.abbr_iri Fixture.set_difference
           pre (renew_subs Fixture.diamond_generator) = Ok mid ∧
         searched_at Fixture.unfold_iri Fixture.abbr_iri Fixture.set_difference
           mid s t cur_subs mid' ∧
         cur_subs ≠ [].
Proof.
  split; [reflexivity|]. split; [vm_compute; reflexivity|].
  apply (online_deletion_consistency Fixture.unfold_iri Fixture.abbr_iri
           Fixture.set_difference Fixture.diamond_generator
           (Fixture.outcome (Fixture.online_run Fixture.diamond_generator))).
  - reflexivity.
  - vm_compute. reflexivity.
Defined.

Lemma preserved_deleted_partition_witness :
  (∀ s t, (s, t) ∈ equiv_pairs Fixture.diamond_generator →
          t ∈ class2idx_keys (tgt_onto Fixture.diamond_generator)) ∧
  ∃ kept,
    (preserved_tgt_iris Fixture.unfold_iri
       (Fixture.outcome (Fixture.static_run Fixture.diamond_generator))).1
      = map Fixture.unfold_iri kept ∧
    (∀ n, n ∈ class2idx_keys
                (tgt_onto (Fixture.outcome
                             (Fixture.static_run Fixture.diamond_generator))) ↔
          n ∈ kept ∨
          marked_deleted
            (Fixture.outcome (Fixture.static_run Fixture.diamond_generator)) n) ∧
    (∀ n, ¬ (n ∈ kept ∧
             marked_deleted
               (Fixture.outcome (Fixture.static_run Fixture.diamond_generator)) n)).
Proof.
  assert (Hidx : ∀ s t, (s, t) ∈ equiv_pairs Fixture.diamond_generator →
                        t ∈ class2idx_keys (tgt_onto Fixture.diamond_generator)).
  { intros s t Hin. apply list_elem_of_singleton in Hin. injection Hin as -> ->.
    by left. }
  split; [exact Hidx|].
  apply (preserved_deleted_partition Fixture.unfold_iri Fixture.abbr_iri
           Fixture.set_difference Fixture.diamond_generator
           (Fixture.outcome (Fixture.static_run Fixture.diamond_generator))).
  - left. vm_compute. reflexivity.
  - exact Hidx.
Defined.

Lemma no_duplicate_output_pairs_witness :
  Fixture.static_run Fixture.diamond_generator
    = Ok (Fixture.outcome (Fixture.static_run Fixture.diamond_generator)) ∧
  NoDup (sub_pairs (Fixture.outcome (Fixture.static_run Fixture.diamond_generator))).
Proof.
  split; [vm_compute; reflexivity|].
  apply (no_duplicate_output_pairs Fixture.unfold_iri Fixture.abbr_iri
           Fixture.set_difference Fixture.diamond_generator).
  left. vm_compute. reflexivity.
Defined.

Lemma init_checks_relation_first_witness :
  init Fixture.diamond_supers Fixture.tree_supers Fixture.read_tsv_mappings 0
    (Fixture.onto ["A"]) (Fixture.onto Fixture.diamond_names) "="
    "equiv.tsv" 1 true 3
  = ([], Raise (ValueError "Unknown subsumption relation: =")).
Proof.
  apply (proj1 (init_checks_relation_first Fixture.diamond_supers
                  Fixture.tree_supers Fixture.read_tsv_mappings 0
                  (Fixture.onto ["A"]) (Fixture.onto Fixture.diamond_names) "="
                  "equiv.tsv" 1 true 3)); discriminate.
Defined.

(** ** The scenarios of the specification *)

(** One ancestor, cap 1: the pair (A, C) at one hop, and B marked deleted
    by the static pass. *)
Example static_on_chain :
  let final := Fixture.outcome (Fixture.static_run Fixture.chain_generator) in
  Fixture.static_run Fixture.chain_generator = Ok final ∧
  sub_pairs final = [("A", "C")] ∧
  hop_record final !! ("A", "C") = Some 1 ∧
  delete_status final !! "B" = Some true.
Proof. vm_compute. repeat split. Qed.

(** No ancestor: no pair, and B is not marked deleted. *)
Example static_on_flat :
  let final := Fixture.outcome (Fixture.static_run Fixture.flat_generator) in
  Fixture.static_run Fixture.flat_generator = Ok final ∧
  sub_pairs final = [] ∧
  delete_status final !! "B" = None.
Proof. vm_compute. repeat split. Qed.

(** Two pairs with target B in the online pass: C is marked constructed by
    the first, B is not, and the second pair is searched too. *)
Example online_on_twice :
  let final := Fixture.outcome (Fixture.online_run Fixture.twice_generator) in
  Fixture.online_run Fixture.twice_generator = Ok final ∧
  sub_pairs final = [("A", "C"); ("X", "C")] ∧
  construct_status final !! "C" = Some true ∧
  construct_status final !! "B" = Some false ∧
  delete_status final !! "B" = Some true.
Proof. vm_compute. repeat split. Qed.

(** The query on a generator that was never run adds a default for each
    class of the index. *)
Example preserved_query_on_fresh_generator :
  let '(preserved, self') :=
    preserved_tgt_iris Fixture.unfold_iri Fixture.chain_generator in
  preserved = ["B"; "C"; "D"] ∧
  delete_status Fixture.chain_generator !! "C" = None ∧
  delete_status self' !! "C" = Some false.
Proof. vm_compute. repeat split. Qed.

(** ** The further properties at work on the fixtures *)

Lemma search_output_recorded_witness :
  Fixture.search Fixture.chain_generator "A" "B"
    = Ok (Fixture.search_outcome (Fixture.search Fixture.chain_generator "A" "B")) ∧
  ∀ s n,
    (s, n) ∈ (Fixture.search_outcome
                (Fixture.search Fixture.chain_generator "A" "B")).1 →
    s = "A" ∧
    marked_constructed
      (Fixture.search_outcome
         (Fixture.search Fixture.chain_generator "A" "B")).2 n ∧
    (∃ h, hop_record
            (Fixture.search_outcome
               (Fixture.search Fixture.chain_generator "A" "B")).2
            !! (s, n) = Some h ∧
          1 ≤ h ≤ max_hop Fixture.chain_generator) ∧
    (is_delete_equiv_tgt Fixture.chain_generator = true →
     ¬ marked_deleted Fixture.chain_generator n ∧
     ¬ marked_deleted
         (Fixture.search_outcome
            (Fixture.search Fixture.chain_generator "A" "B")).2 n).
Proof.
  split; [vm_compute; reflexivity|].
  apply (search_output_recorded Fixture.unfold_iri Fixture.abbr_iri
           Fixture.set_difference Fixture.chain_generator "A" "B").
  vm_compute. reflexivity.
Defined.

Lemma pass_books_balanced_witness :
  Fixture.online_run Fixture.twice_generator
    = Ok (Fixture.outcome (Fixture.online_run Fixture.twice_generator)) ∧
  ∀ key,
    is_Some (hop_record
               (Fixture.outcome (Fixture.online_run Fixture.twice_generator))
               !! key) ↔
    key ∈ sub_pairs (Fixture.outcome (Fixture.online_run Fixture.twice_generator)).
Proof.
  split; [vm_compute; reflexivity|].
  apply (pass_books_balanced Fixture.unfold_iri Fixture.abbr_iri
           Fixture.set_difference Fixture.twice_generator).
  right. vm_compute. reflexivity.
Defined.

Lemma static_outputs_not_deleted_witness :
  Fixture.static_run Fixture.diamond_generator
    = Ok (Fixture.outcome (Fixture.static_run Fixture.diamond_generator)) ∧
  ∀ s n,
    (s, n) ∈ sub_pairs
               (Fixture.outcome (Fixture.static_run Fixture.diamond_generator)) →
    ¬ marked_deleted
        (Fixture.outcome (Fixture.static_run Fixture.diamond_generator)) n.
Proof.
  split; [vm_compute; reflexivity|].
  apply (static_outputs_not_deleted Fixture.unfold_iri Fixture.abbr_iri
           Fixture.set_difference Fixture.diamond_generator).
  vm_compute. reflexivity.
Defined.

Lemma chain_no_return :
  no_return Fixture.unfold_iri Fixture.abbr_iri
    (tgt_onto Fixture.twice_generator) (move Fixture.twice_generator)
    (max_hop Fixture.twice_generator) (equiv_pairs Fixture.twice_generator).
Proof.
  intros s t ent h e Hin Hent Hh He.
  assert (t = "B") as ->.
  { simpl in Hin. rewrite !elem_of_cons, elem_of_nil in Hin. naive_solver. }
  injection Hent as <-.
  change (max_hop Fixture.twice_generator) with 2 in Hh.
  assert (h = 1 ∨ h = 2) as [-> | ->] by lia.
  - vm_compute in He. apply list_elem_of_singleton in He. by subst e.
  - vm_compute in He. apply list_elem_of_singleton in He. by subst e.
Qed.

Lemma online_outputs_not_deleted_witness :
  Fixture.online_run Fixture.twice_generator
    = Ok (Fixture.outcome (Fixture.online_run Fixture.twice_generator)) ∧
  ∀ s n,
    (s, n) ∈ sub_pairs
               (Fixture.outcome (Fixture.online_run Fixture.twice_generator)) →
    ¬ marked_deleted
        (Fixture.outcome (Fixture.online_run Fixture.twice_generator)) n.
Proof.
  split; [vm_compute; reflexivity|].
  apply (online_outputs_not_deleted Fixture.unfold_iri Fixture.abbr_iri
           Fixture.set_difference Fixture.twice_generator).
  - apply fixture_set_difference_subset.
  - apply chain_no_return.
  - vm_compute. reflexivity.
Defined.

Lemma passes_coincide_without_deletion_witness :
  is_delete_equiv_tgt Fixture.plain_generator = false ∧
  Fixture.static_run Fixture.plain_generator
    = Fixture.online_run Fixture.plain_generator.
Proof.
  split; [reflexivity|].
  apply (passes_coincide_without_deletion Fixture.unfold_iri Fixture.abbr_iri
           Fixture.set_difference Fixture.plain_generator).
  reflexivity.
Defined.

Lemma pass_ignores_earlier_pass_witness :
  Fixture.online_run Fixture.twice_generator
    = Ok (Fixture.outcome (Fixture.online_run Fixture.twice_generator)) ∧
  Fixture.static_run (Fixture.outcome (Fixture.online_run Fixture.twice_generator))
    = Fixture.static_run Fixture.twice_generator ∧
  Fixture.online_run (Fixture.outcome (Fixture.online_run Fixture.twice_generator))
    = Fixture.online_run Fixture.twice_generator.
Proof.
  split; [vm_compute; reflexivity|].
  apply (pass_ignores_earlier_pass Fixture.unfold_iri Fixture.abbr_iri
           Fixture.set_difference Fixture.twice_generator).
  right. vm_compute. reflexivity.
Defined.

Lemma search_without_neighbours_witness :
  move Fixture.flat_generator (Fixture.cls "B") = [] ∧
  Fixture.search Fixture.flat_generator "A" "B" = Ok ([], Fixture.flat_generator).
Proof.
  split; [reflexivity|].
  apply (search_without_neighbours Fixture.unfold_iri Fixture.abbr_iri
           Fixture.set_difference Fixture.flat_generator "A" "B" (Fixture.cls "B")).
  - reflexivity.
  - reflexivity.
  - reflexivity.
Defined.

Lemma init_success_shape_witness :
  let r :=
    init Fixture.chain_supers Fixture.tree_supers Fixture.read_tsv_mappings 0
      (Fixture.onto ["A"]) (Fixture.onto ["B"; "C"; "D"]) "<" "equiv.tsv"
      1 true 2 in
  r = (r.1, Ok (Fixture.outcome r.2)) ∧
  r.1 = [EvReadTsv "equiv.tsv"; EvRandomChoice] ∧
  Fixture.read_tsv_mappings "equiv.tsv" = inr (equiv_pairs (Fixture.outcome r.2)).
Proof.
  intros r.
  assert (Hrun : r = (r.1, Ok (Fixture.outcome r.2)))
    by (vm_compute; reflexivity).
  split; [exact Hrun|].
  destruct (init_success_shape Fixture.chain_supers Fixture.tree_supers
              Fixture.read_tsv_mappings 0
              (Fixture.onto ["A"]) (Fixture.onto ["B"; "C"; "D"]) "<" "equiv.tsv"
              1 true 2 r.1 (Fixture.outcome r.2) Hrun) as (Hevents & Hread & _).
  split; [exact Hevents|exact Hread].
Defined.

Lemma init_sanity_check_witness :
  (init Fixture.chain_supers Fixture.tree_supers Fixture.read_empty_mappings 0
     (Fixture.onto ["A"]) (Fixture.onto ["B"; "C"; "D"]) "<" "equiv.tsv"
     1 true 2).2 = Raise IndexError.
Proof.
  apply (init_sanity_check Fixture.chain_supers Fixture.tree_supers
           Fixture.read_empty_mappings 0
           (Fixture.onto ["A"]) (Fixture.onto ["B"; "C"; "D"]) "<" "equiv.tsv"
           1 true 2 []); [by left|reflexivity|reflexivity].
Defined.

Lemma validate_subs_answer_witness :
  validate_subs Fixture.unfold_iri Fixture.chain_ancestors (λ _, [])
    Fixture.chain_ranked_keys Fixture.chain_generator ("A", "D") = Valid true ↔
  ∃ pre k post e rest,
    ["B"] = pre ++ k :: post ∧
    owl_search (tgt_onto Fixture.chain_generator) (Fixture.unfold_iri k)
      = e :: rest ∧
    Fixture.cls "D" ∈ Fixture.chain_ancestors e ∧
    ∀ k', k' ∈ pre →
      ∃ e' rest',
        owl_search (tgt_onto Fixture.chain_generator) (Fixture.unfold_iri k')
          = e' :: rest' ∧
        Fixture.cls "D" ∉ Fixture.chain_ancestors e'.
Proof.
  apply (validate_subs_answer Fixture.unfold_iri Fixture.chain_ancestors
           (λ _, []) Fixture.chain_ranked_keys Fixture.chain_generator
           "A" "D" (Fixture.cls "D") [] (λ e, Fixture.chain_ancestors e) ["B"]);
    reflexivity.
Defined.

Lemma validate_subs_assigned_after_init_witness :
  let r :=
    init Fixture.chain_supers Fixture.tree_supers Fixture.read_tsv_mappings 0
      (Fixture.onto ["A"]) (Fixture.onto ["B"; "C"; "D"]) "<" "equiv.tsv"
      1 true 2 in
  r = (r.1, Ok (Fixture.outcome r.2)) ∧
  validate_subs Fixture.unfold_iri Fixture.chain_ancestors (λ _, [])
    Fixture.chain_ranked_keys (Fixture.outcome r.2) ("A", "D")
  ≠ UnboundLocalError.
Proof.
  split; [vm_compute; reflexivity|].
  apply (validate_subs_assigned_after_init Fixture.unfold_iri
           Fixture.chain_ancestors (λ _, []) Fixture.chain_ranked_keys
           Fixture.chain_supers Fixture.tree_supers Fixture.read_tsv_mappings 0
           (Fixture.onto ["A"]) (Fixture.onto ["B"; "C"; "D"]) "<" "equiv.tsv"
           1 true 2
           (init Fixture.chain_supers Fixture.tree_supers
              Fixture.read_tsv_mappings 0 (Fixture.onto ["A"])
              (Fixture.onto ["B"; "C"; "D"]) "<" "equiv.tsv" 1 true 2).1).
  vm_compute. reflexivity.
Defined.

Lemma chain_supers_cases e n :
  n ∈ Fixture.chain_supers e →
  (iri e = "B" ∧ n = Fixture.cls "C") ∨ (iri e = "C" ∧ n = Fixture.cls "D").
Proof.
  unfold Fixture.chain_supers.
  destruct (String.eqb (iri e) "B") eqn:EB.
  { apply String.eqb_eq in EB. intros Hn.
    apply list_elem_of_singleton in Hn. by left. }
  destruct (String.eqb (iri e) "C") eqn:EC.
  { apply String.eqb_eq in EC. intros Hn.
    apply list_elem_of_singleton in Hn. by right. }
  intros Hn. by apply elem_of_nil in Hn.
Qed.

Lemma chain_ancestors_cases e m :
  m ∈ Fixture.chain_ancestors e →
  (iri e = "B" ∧ (m = Fixture.cls "C" ∨ m = Fixture.cls "D")) ∨
  (iri e = "C" ∧ m = Fixture.cls "D").
Proof.
  unfold Fixture.chain_ancestors.
  destruct (String.eqb (iri e) "B") eqn:EB.
  { apply String.eqb_eq in EB. rewrite !elem_of_cons, elem_of_nil.
    naive_solver. }
  destruct (String.eqb (iri e) "C") eqn:EC.
  { apply String.eqb_eq in EC. intros Hn.
    apply list_elem_of_singleton in Hn. by right. }
  intros Hn. by apply elem_of_nil in Hn.
Qed.

Lemma generated_pairs_validate_witness :
  Fixture.search Fixture.chain_generator "A" "B"
    = Ok (Fixture.search_outcome (Fixture.search Fixture.chain_generator "A" "B")) ∧
  ∀ p,
    p ∈ (Fixture.search_outcome
           (Fixture.search Fixture.chain_generator "A" "B")).1 →
    validate_subs Fixture.unfold_iri Fixture.chain_ancestors (λ _, [])
      Fixture.chain_ranked_keys
      (Fixture.search_outcome
         (Fixture.search Fixture.chain_generator "A" "B")).2 p
    = Valid true.
Proof.
  split; [vm_compute; reflexivity|].
  apply (generated_pairs_validate Fixture.unfold_iri Fixture.abbr_iri
           Fixture.set_difference Fixture.chain_ancestors (λ _, [])
           Fixture.chain_ranked_keys Fixture.chain_generator "A" "B"
           (Fixture.search_outcome
              (Fixture.search Fixture.chain_generator "A" "B")).1
           (Fixture.search_outcome
              (Fixture.search Fixture.chain_generator "A" "B")).2
           (λ e, Fixture.chain_ancestors e) ["B"]).
  - apply fixture_set_difference_subset.
  - reflexivity.
  - intros e n Hn. destruct e as [i].
    apply chain_supers_cases in Hn as [[E ->]|[E ->]]; simpl in E; subst i;
      vm_compute; repeat constructor.
  - intros e m n Hm Hn. destruct e as [i].
    apply chain_supers_cases in Hn as [[Em ->]|[Em ->]];
      apply chain_ancestors_cases in Hm as [[E Hm]|[E Hm]]; simpl in E; subst i;
      try (destruct Hm as [-> | ->]); try subst m; simpl in Em; try done;
      vm_compute; repeat constructor.
  - intros e n Hn.
    apply chain_supers_cases in Hn as [[_ ->]|[_ ->]]; by eexists.
  - reflexivity.
  - by left.
  - intros k Hk. apply list_elem_of_singleton in Hk as ->. done.
  - vm_compute. reflexivity.
Defined.

(** An equivalence target that does not resolve stops the static pass. *)
Example static_on_broken :
  Fixture.static_run Fixture.broken_generator = Raise IndexError.
Proof. vm_compute. reflexivity. Qed.

(** Token sizes of three items of 2, 130 and 600 tokens. *)
Example token_sizes_of_three_items :
  count_token_sizes [[101; 102]; replicate 130 7; replicate 600 7]
  = {| l_sum := 732; num_128 := 1; num_256 := 2; num_512 := 2; l_max := 600 |}.
Proof. vm_compute. reflexivity. Qed.

(** C5 fails when an equivalence target lies outside the class index: the
    constructor checks one sampled pair only, so it accepts the mappings
    (A, C) and (X, B) although B, which resolves, is not a key of the index;
    the static pass then marks B deleted, and the deleted classes and the
    kept names do not partition the index. *)
Lemma partition_fails_outside_index :
  ¬ partitions_class_index Fixture.unfold_iri Fixture.abbr_iri
      Fixture.set_difference Fixture.outside_generator.
Proof.
  intros Hclaim.
  assert (Hrun : static_subs_construct Fixture.unfold_iri Fixture.abbr_iri
                   Fixture.set_difference Fixture.outside_generator
                 = Ok (Fixture.outcome (Fixture.static_run Fixture.outside_generator)))
    by (vm_compute; reflexivity).
  destruct (Hclaim _ (or_introl Hrun)) as (kept & _ & Hcover & _).
  assert (Hdel : marked_deleted
                   (Fixture.outcome (Fixture.static_run Fixture.outside_generator))
                   "B") by (vm_compute; reflexivity).
  assert (Hkeys : class2idx_keys
                    (tgt_onto (Fixture.outcome
                                 (Fixture.static_run Fixture.outside_generator)))
                  = ["C"; "D"]) by (vm_compute; reflexivity).
  pose proof (proj2 (Hcover "B") (or_intror Hdel)) as Hin.
  rewrite Hkeys, !elem_of_cons, elem_of_nil in Hin.
  by destruct Hin as [?|[?|?]].
Qed.

(** The constructor returns that generator when the sample it draws is the
    first pair. *)
Example init_accepts_target_outside_index :
  init Fixture.chain_supers Fixture.tree_supers Fixture.read_outside_mappings 0
    (Fixture.onto ["A"; "X"])
    (Fixture.partial_onto ["C"; "D"] ["B"; "C"; "D"]) "<" "equiv.tsv" 1 true 2
  = ([EvReadTsv "equiv.tsv"; EvRandomChoice], Ok Fixture.outside_generator).
Proof. vm_compute. reflexivity. Qed.
